(** * Compact IRIs of fogfish/iri (src/iri.go)

    A shallow embedding of the [Compact] segment sequence and of its
    navigation operations.  Go strings are byte strings: they are modelled
    by [String.string], one [ascii] per byte.  A Go [int] is a [Z] with the
    64-bit two's complement wrap-around of its arithmetic written out.  An
    operation that may panic (slice out of range) returns an [option]:
    [None] is the run-time panic. *)

From Stdlib Require Import String Ascii List ZArith Bool Lia.
Import ListNotations.
Open Scope list_scope.
Open Scope Z_scope.

(** ** Go integers *)

Definition int_min : Z := - 2 ^ 63.
Definition int_max : Z := 2 ^ 63 - 1.

(** Two's complement wrap-around of a 64-bit [int]. *)
Definition wrap64 (z : Z) : Z := (z + 2 ^ 63) mod 2 ^ 64 - 2 ^ 63.

Definition is_int (z : Z) : Prop := int_min <= z <= int_max.

(** [a - b] on Go [int]s. *)
Definition int_sub (a b : Z) : Z := wrap64 (a - b).

(** [len(s)] of a slice. *)
Definition go_len {A} (l : list A) : Z := Z.of_nat (length l).

(** ** Slicing

    [s[:hi]] and [s[lo:hi]] on a list, which has no capacity: the bounds
    are checked against the length.  Go checks the upper bound against the
    capacity.  The two agree on a slice from [strings.Split] (capacity =
    length) and whenever [hi <= len(s)], as at every rank [>= 0]; on a
    slice with room left, such as [parse("a:b:c").Heir("d")] (length 4,
    capacity 6), Go reads past the length at a negative rank where these
    return [None].  [GoHeap] below keeps the capacity for that case. *)

Definition slice_to {A} (l : list A) (hi : Z) : option (list A) :=
  if (0 <=? hi) && (hi <=? go_len l) then Some (firstn (Z.to_nat hi) l)
  else None.

Definition slice {A} (l : list A) (lo hi : Z) : option (list A) :=
  if (0 <=? lo) && (lo <=? hi) && (hi <=? go_len l)
  then Some (firstn (Z.to_nat hi - Z.to_nat lo) (skipn (Z.to_nat lo) l))
  else None.

(** ** strings.Split and strings.Join *)

(** [strings.Split s sep] for a one-byte separator: the pieces of [s]
    between the occurrences of [sep]; [Split "" sep = [""]]. *)
Fixpoint Split (s : string) (sep : ascii) : list string :=
  match s with
  | EmptyString => [EmptyString]
  | String c s' =>
      if Ascii.eqb c sep then EmptyString :: Split s' sep
      else match Split s' sep with
           | h :: t => String c h :: t
           | [] => [String c EmptyString]
           end
  end.

(** [strings.Join elems sep]. *)
Fixpoint Join (elems : list string) (sep : string) : string :=
  match elems with
  | [] => EmptyString
  | [e] => e
  | e :: rest => (e ++ sep ++ Join rest sep)%string
  end.

Definition colon : ascii := ":"%char.

(** ** The Compact and IRI types *)

Record Compact := { Seq : list string }.

Record IRI := { ID : Compact }.

(** [NewCompact]: [Compact{Seq: strings.Split(iri, ":")}]. *)
Definition NewCompact (iri : string) : Compact :=
  {| Seq := Split iri colon |}.

(** [New] without format arguments. *)
Definition New (iri : string) : IRI := {| ID := NewCompact iri |}.

(** The rank of the variadic [rank ...int] parameter: [rank[0]], or 1. *)
Definition rank_of (rank : list Z) : Z :=
  match rank with
  | r :: _ => r
  | [] => 1
  end.

(** [Compact.Prefix]. *)
Definition Prefix (iri : Compact) (rank : list Z) : option string :=
  let r := rank_of rank in
  if (r =? 1) && (go_len (Seq iri) =? 1) then Some (Join (Seq iri) ":")
  else
    let n := int_sub (go_len (Seq iri)) r in
    if n <? 0 then Some EmptyString
    else match slice_to (Seq iri) n with
         | Some p => Some (Join p ":")
         | None => None
         end.

(** [Compact.Suffix]. *)
Definition Suffix (iri : Compact) (rank : list Z) : option string :=
  let r := rank_of rank in
  if go_len (Seq iri) =? 1 then Some EmptyString
  else
    let n0 := int_sub (go_len (Seq iri)) r in
    let n := if n0 <? 0 then 0 else n0 in
    match slice (Seq iri) n (go_len (Seq iri)) with
    | Some p => Some (Join p ":")
    | None => None
    end.

(** The root identity [Compact{Seq: []string{""}}]. *)
Definition root : Compact := {| Seq := [EmptyString] |}.

(** [Compact.Parent]; the copy [append([]string{}, iri.Seq[:n]...)] has
    the contents of [iri.Seq[:n]] (the sharing is modelled in [GoHeap]). *)
Definition Parent (iri : Compact) (rank : list Z) : option Compact :=
  let r := rank_of rank in
  let n := int_sub (go_len (Seq iri)) r in
  if n <=? 0 then Some root
  else match slice_to (Seq iri) n with
       | Some p => Some {| Seq := [] ++ p |}
       | None => None
       end.

(** [Compact.Heir]; [iri.Seq[0]] is only read when [len(iri.Seq) == 1]. *)
Definition Heir (iri : Compact) (segment : string) : Compact :=
  if (go_len (Seq iri) =? 1) &&
     (match Seq iri with s0 :: _ => String.eqb s0 EmptyString | [] => false end)
  then {| Seq := [segment] |}
  else {| Seq := ([] ++ Seq iri) ++ [segment] |}.

(** [Compact.String]. *)
Definition to_String (iri : Compact) : string := Join (Seq iri) ":".

(** [Compact.Eq]: equal lengths, then a [range] loop comparing
    [x.Seq[i]] with [v]. *)
Fixpoint eq_loop (i : nat) (vs : list string) (xs : list string) : bool :=
  match vs with
  | [] => true
  | v :: vs' =>
      match nth_error xs i with
      | Some w => if String.eqb w v then eq_loop (S i) vs' xs else false
      | None => false (* unreachable: the lengths are equal *)
      end
  end.

Definition Eq (iri x : Compact) : bool :=
  if negb (go_len (Seq iri) =? go_len (Seq x)) then false
  else eq_loop 0 (Seq iri) (Seq x).

(** The [IRI] wrapper delegates to [Compact]. *)
Definition IRI_Prefix (iri : IRI) (rank : list Z) := Prefix (ID iri) rank.
Definition IRI_Suffix (iri : IRI) (rank : list Z) := Suffix (ID iri) rank.
Definition IRI_Parent (iri : IRI) (rank : list Z) : option IRI :=
  match Parent (ID iri) rank with
  | Some c => Some {| ID := c |}
  | None => None
  end.
Definition IRI_Heir (iri : IRI) (segment : string) : IRI :=
  {| ID := Heir (ID iri) segment |}.
Definition IRI_Eq (iri x : IRI) : bool := Eq (ID iri) (ID x).

(** ** Backing arrays

    [GoHeap] models the slices of [Parent] and [Heir] with their backing
    arrays: a store of arrays (indexed by allocation order) and slice
    headers (array, offset, length, capacity).  [append] writes in place when
    the capacity allows it and otherwise allocates a new array, whose
    capacity is chosen by the run-time's growth policy [growcap] (old
    capacity, needed length). *)

Module GoHeap.

Record slice := { arr : nat; off : nat; len : nat; cap : nat }.

Definition store := list (list string).

Definition backing (st : store) (a : nat) : list string := nth a st [].

(** The elements a slice header denotes. *)
Definition read (st : store) (s : slice) : list string :=
  firstn (len s) (skipn (off s) (backing st (arr s))).

Definition alloc (st : store) (contents : list string) : store * nat :=
  (st ++ [contents], length st).

Definition set_backing (st : store) (a : nat) (v : list string) : store :=
  firstn a st ++ [v] ++ skipn (S a) st.

(** The composite literal [[]string{}]: length and capacity 0. *)
Definition empty_lit (st : store) : store * slice :=
  let (st', a) := alloc st [] in (st', {| arr := a; off := 0; len := 0; cap := 0 |}).

(** The composite literal [[]string{x}]. *)
Definition lit1 (st : store) (x : string) : store * slice :=
  let (st', a) := alloc st [x] in (st', {| arr := a; off := 0; len := 1; cap := 1 |}).

(** [s[:hi]]: checked against the capacity, as Go does. *)
Definition slice_to_h (s : slice) (hi : Z) : option slice :=
  if (0 <=? hi) && (hi <=? Z.of_nat (cap s))
  then Some {| arr := arr s; off := off s; len := Z.to_nat hi; cap := cap s |}
  else None.

(** [NewCompact]: [strings.Split] returns a slice of an array of exactly
    the number of pieces. *)
Definition NewCompact_h (st : store) (iri : string) : store * slice :=
  let l := Split iri colon in
  let (st', a) := alloc st l in
  (st', {| arr := a; off := 0; len := length l; cap := length l |}).

Section Append.

Variable growcap : nat -> nat -> nat.

(** [append(s, xs...)]. *)
Definition append (st : store) (s : slice) (xs : list string) : store * slice :=
  let newlen := (len s + length xs)%nat in
  if (newlen <=? cap s)%nat then
    let a := backing st (arr s) in
    let p := (off s + len s)%nat in
    (set_backing st (arr s) (firstn p a ++ xs ++ skipn (p + length xs) a),
     {| arr := arr s; off := off s; len := newlen; cap := cap s |})
  else
    let nc := growcap (cap s) newlen in
    let (st', a) := alloc st (read st s ++ xs ++ repeat EmptyString (nc - newlen)) in
    (st', {| arr := a; off := 0; len := newlen; cap := nc |}).

(** [Compact.Parent]. *)
Definition Parent_h (st : store) (iri : slice) (rank : list Z)
  : option (store * slice) :=
  let r := rank_of rank in
  let n := int_sub (Z.of_nat (len iri)) r in
  if n <=? 0 then Some (lit1 st EmptyString)
  else match slice_to_h iri n with
       | Some p =>
           let (st1, e) := empty_lit st in
           Some (append st1 e (read st1 p))
       | None => None
       end.

(** [Compact.Heir]. *)
Definition Heir_h (st : store) (iri : slice) (segment : string)
  : store * slice :=
  if (Z.of_nat (len iri) =? 1) &&
     (match read st iri with s0 :: _ => String.eqb s0 EmptyString | [] => false end)
  then lit1 st segment
  else
    let (st1, e) := empty_lit st in
    let (st2, c) := append st1 e (read st iri) in
    append st2 c [segment].

End Append.

(** A slice header that lies inside an allocated array. *)
Definition wf_slice (st : store) (s : slice) : Prop :=
  (arr s < length st)%nat /\ (len s <= cap s)%nat /\
  (off s + cap s <= length (backing st (arr s)))%nat.

(** [st'] keeps every array of [st] as it was. *)
Definition preserves (st st' : store) : Prop :=
  (length st <= length st')%nat /\
  forall a, (a < length st)%nat -> backing st' a = backing st a.

End GoHeap.

(** ** The JSON string codec of encoding/json

    [Compact.MarshalJSON] and [Compact.UnmarshalJSON] call [json.Marshal]
    and [json.Unmarshal] on a Go [string].  The parts of encoding/json and
    unicode/utf8 they run are modelled below, byte for byte. *)

Module GoJSON.

(** A byte's value, and [byte(z)]. *)
Definition bv (c : ascii) : Z := Z.of_N (N_of_ascii c).
Definition chr (z : Z) : ascii := ascii_of_N (Z.to_N (z mod 256)).

Definition byte_at (p : string) (i : nat) : Z :=
  match String.get i p with Some c => bv c | None => 0 end.

Definition RuneError : Z := 65533. (* U+FFFD *)

(** [utf8.first] and [utf8.acceptRanges]: for a byte [>= 0x80], the size
    of the sequence it starts and the range of its second byte. *)
Definition first (b0 : Z) : option (nat * Z * Z) :=
  if b0 <? 194 then None                          (* 0x80..0xC1: xx *)
  else if b0 <=? 223 then Some (2%nat, 128, 191)  (* 0xC2..0xDF *)
  else if b0 =? 224 then Some (3%nat, 160, 191)   (* 0xE0 *)
  else if b0 <=? 236 then Some (3%nat, 128, 191)  (* 0xE1..0xEC *)
  else if b0 =? 237 then Some (3%nat, 128, 159)   (* 0xED *)
  else if b0 <=? 239 then Some (3%nat, 128, 191)  (* 0xEE..0xEF *)
  else if b0 =? 240 then Some (4%nat, 144, 191)   (* 0xF0 *)
  else if b0 <=? 243 then Some (4%nat, 128, 191)  (* 0xF1..0xF3 *)
  else if b0 =? 244 then Some (4%nat, 128, 143)   (* 0xF4 *)
  else None.                                      (* 0xF5..0xFF: xx *)

Definition not_cont (b : Z) : bool := (b <? 128) || (191 <? b).

(** [utf8.DecodeRune(p)]: the rune and its size. *)
Definition DecodeRune (p : string) : Z * nat :=
  let n := String.length p in
  if (n <? 1)%nat then (RuneError, 0%nat) else
  let p0 := byte_at p 0 in
  if p0 <? 128 then (p0, 1%nat) else
  match first p0 with
  | None => (RuneError, 1%nat)
  | Some (sz, lo, hi) =>
    if (n <? sz)%nat then (RuneError, 1%nat) else
    let b1 := byte_at p 1 in
    if (b1 <? lo) || (hi <? b1) then (RuneError, 1%nat) else
    if (sz <=? 2)%nat then
      (Z.lor (Z.shiftl (Z.land p0 31) 6) (Z.land b1 63), 2%nat) else
    let b2 := byte_at p 2 in
    if not_cont b2 then (RuneError, 1%nat) else
    if (sz <=? 3)%nat then
      (Z.lor (Z.lor (Z.shiftl (Z.land p0 15) 12) (Z.shiftl (Z.land b1 63) 6))
             (Z.land b2 63), 3%nat) else
    let b3 := byte_at p 3 in
    if not_cont b3 then (RuneError, 1%nat) else
    (Z.lor (Z.lor (Z.lor (Z.shiftl (Z.land p0 7) 18) (Z.shiftl (Z.land b1 63) 12))
                  (Z.shiftl (Z.land b2 63) 6)) (Z.land b3 63), 4%nat)
  end.

Definition str1 (a : ascii) : string := String a EmptyString.

(** The three bytes [utf8.EncodeRune] writes for a rune of [0x800..0xFFFF]. *)
Definition enc3 (r : Z) : string :=
  String (chr (Z.lor 224 (Z.shiftr r 12 mod 256)))
    (String (chr (Z.lor 128 (Z.land (Z.shiftr r 6 mod 256) 63)))
       (str1 (chr (Z.lor 128 (Z.land (r mod 256) 63))))).

(** [utf8.EncodeRune(p, r)]: the bytes written. *)
Definition EncodeRune (r : Z) : string :=
  let i := r mod 2 ^ 32 in
  if i <=? 127 then str1 (chr r)
  else if i <=? 2047 then
    String (chr (Z.lor 192 (Z.shiftr r 6 mod 256)))
      (str1 (chr (Z.lor 128 (Z.land (r mod 256) 63))))
  else if (1114111 <? i) || ((55296 <=? i) && (i <=? 57343)) then
    enc3 RuneError
  else if i <=? 65535 then enc3 r
  else
    String (chr (Z.lor 240 (Z.shiftr r 18 mod 256)))
      (String (chr (Z.lor 128 (Z.land (Z.shiftr r 12 mod 256) 63)))
         (String (chr (Z.lor 128 (Z.land (Z.shiftr r 6 mod 256) 63)))
            (str1 (chr (Z.lor 128 (Z.land (r mod 256) 63)))))).

(** [utf8.ValidString]. *)
Fixpoint ValidString (s : string) : bool :=
  match s with
  | EmptyString => true
  | String c rest =>
    if bv c <? 128 then ValidString rest else
    match DecodeRune s, rest with
    | (_, 2%nat), String _ r2 => ValidString r2
    | (_, 3%nat), String _ (String _ r3) => ValidString r3
    | (_, 4%nat), String _ (String _ (String _ r4)) => ValidString r4
    | _, _ => false
    end
  end.

Definition hexdigits : string := "0123456789abcdef".
Definition hex (n : Z) : ascii :=
  match String.get (Z.to_nat n) hexdigits with Some c => c | None => "0"%char end.

Definition bslash : ascii := "\"%char.
Definition dquote : ascii := ascii_of_nat 34.

(** [htmlSafeSet]: ASCII bytes written unescaped when escapeHTML is on. *)
Definition htmlSafe (b : Z) : bool :=
  (32 <=? b) && (b <? 128) && negb (b =? 34) && negb (b =? 92) &&
  negb (b =? 60) && negb (b =? 62) && negb (b =? 38).

(** The escape written for an ASCII byte outside [htmlSafeSet]. *)
Definition escape_ascii (b : Z) : string :=
  if (b =? 92) || (b =? 34) then String bslash (str1 (chr b))
  else if b =? 8 then String bslash (str1 "b"%char)
  else if b =? 12 then String bslash (str1 "f"%char)
  else if b =? 10 then String bslash (str1 "n"%char)
  else if b =? 13 then String bslash (str1 "r"%char)
  else if b =? 9 then String bslash (str1 "t"%char)
  else String bslash (String "u"%char (String "0"%char (String "0"%char
         (String (hex (Z.shiftr b 4)) (str1 (hex (Z.land b 15))))))).

(** [appendString(dst, src, escapeHTML = true)] without its quotes.  Go
    copies runs of unescaped bytes in one [append]; writing them one at a
    time gives the same bytes.  The rune at [i] is decoded from
    [src[i:i+min(4, len(src)-i)]]. *)
Fixpoint appendString (s : string) : string :=
  match s with
  | EmptyString => EmptyString
  | String c rest =>
    let b := bv c in
    if b <? 128 then
      if htmlSafe b then String c (appendString rest)
      else (escape_ascii b ++ appendString rest)%string
    else
      let '(r, size) := DecodeRune (substring 0 4 s) in
      if (r =? RuneError) && (size =? 1)%nat then
        ("\ufffd" ++ appendString rest)%string
      else if (r =? 8232) || (r =? 8233) then
        match rest with
        | String _ (String _ r3) =>
            ("\u202" ++ str1 (hex (Z.land r 15)) ++ appendString r3)%string
        | _ => EmptyString (* unreachable: U+2028 and U+2029 take 3 bytes *)
        end
      else
        match size, rest with
        | 2%nat, String c1 r2 => String c (String c1 (appendString r2))
        | 3%nat, String c1 (String c2 r3) =>
            String c (String c1 (String c2 (appendString r3)))
        | 4%nat, String c1 (String c2 (String c3 r4)) =>
            String c (String c1 (String c2 (String c3 (appendString r4))))
        | _, _ => EmptyString (* unreachable: a decoded rune fits in src *)
        end
  end.

(** A byte [appendString] may write: no control byte
    and none of [<], [>], [&]. *)
Definition safe (c : ascii) : Prop :=
  32 <= bv c /\ bv c <> 60 /\ bv c <> 62 /\ bv c <> 38.

(** [json.Marshal] of a Go [string]. *)
Definition Marshal_string (s : string) : string :=
  String dquote (appendString s ++ str1 dquote).

(** JSON white space: [isSpace]. *)
Definition is_space (c : ascii) : bool :=
  let b := bv c in (b =? 32) || (b =? 9) || (b =? 13) || (b =? 10).

Fixpoint skip_space (s : string) : string :=
  match s with
  | String c rest => if is_space c then skip_space rest else s
  | EmptyString => EmptyString
  end.

Fixpoint all_space (s : string) : bool :=
  match s with
  | String c rest => is_space c && all_space rest
  | EmptyString => true
  end.

Definition is_hex (c : ascii) : bool :=
  let b := bv c in
  ((48 <=? b) && (b <=? 57)) || ((97 <=? b) && (b <=? 102)) ||
  ((65 <=? b) && (b <=? 70)).

(** The scanner inside a string literal ([stateInString],
    [stateInStringEsc], [stateInStringEscU]): the raw bytes up to the
    closing quote, and the bytes after it; [None] is a syntax error. *)
Fixpoint scan_string (s : string) : option (string * string) :=
  match s with
  | EmptyString => None
  | String c rest =>
    if Ascii.eqb c dquote then Some (EmptyString, rest)
    else if Ascii.eqb c bslash then
      match rest with
      | EmptyString => None
      | String e rest' =>
        if existsb (Ascii.eqb e) ["b"; "f"; "n"; "r"; "t"; bslash; "/"; dquote]%char
        then match scan_string rest' with
             | Some (body, after) => Some (String c (String e body), after)
             | None => None
             end
        else if Ascii.eqb e "u"%char then
          match rest' with
          | String h1 (String h2 (String h3 (String h4 r4))) =>
            if is_hex h1 && is_hex h2 && is_hex h3 && is_hex h4 then
              match scan_string r4 with
              | Some (body, after) =>
                  Some (String c (String e (String h1 (String h2 (String h3
                          (String h4 body))))), after)
              | None => None
              end
            else None
          | _ => None
          end
        else None
      end
    else if bv c <? 32 then None
    else match scan_string rest with
         | Some (body, after) => Some (String c body, after)
         | None => None
         end
  end.

Definition hexval (c : ascii) : Z :=
  let b := bv c in
  if (48 <=? b) && (b <=? 57) then b - 48
  else if (97 <=? b) && (b <=? 102) then b - 97 + 10
  else if (65 <=? b) && (b <=? 70) then b - 65 + 10
  else -1.

(** [getu4]: the value of [\uXXXX] at the start of [s], or [-1]. *)
Definition getu4 (s : string) : Z :=
  match s with
  | String c0 (String c1 (String h1 (String h2 (String h3 (String h4 _))))) =>
    if Ascii.eqb c0 bslash && Ascii.eqb c1 "u"%char &&
       is_hex h1 && is_hex h2 && is_hex h3 && is_hex h4
    then ((hexval h1 * 16 + hexval h2) * 16 + hexval h3) * 16 + hexval h4
    else -1
  | _ => -1
  end.

Definition ReplacementChar : Z := 65533.

(** [utf16.IsSurrogate] and [utf16.DecodeRune]. *)
Definition IsSurrogate (r : Z) : bool := (55296 <=? r) && (r <? 57344).

Definition DecodeRune16 (r1 r2 : Z) : Z :=
  if (55296 <=? r1) && (r1 <? 56320) && (56320 <=? r2) && (r2 <? 57344)
  then Z.lor (Z.shiftl (r1 - 55296) 10) (r2 - 56320) + 65536
  else ReplacementChar.

(** The unquoting loop of [unquoteBytes], from the first byte that needs
    work; [None] is [ok == false]. *)
Fixpoint unquote_loop (s : string) : option string :=
  match s with
  | EmptyString => Some EmptyString
  | String c rest =>
    if Ascii.eqb c bslash then
      match rest with
      | EmptyString => None
      | String e rest' =>
        let emit (x : ascii) :=
          match unquote_loop rest' with
          | Some t => Some (String x t) | None => None end in
        if existsb (Ascii.eqb e) [dquote; bslash; "/"; "'"]%char then emit e
        else if Ascii.eqb e "b"%char then emit (ascii_of_nat 8)
        else if Ascii.eqb e "f"%char then emit (ascii_of_nat 12)
        else if Ascii.eqb e "n"%char then emit (ascii_of_nat 10)
        else if Ascii.eqb e "r"%char then emit (ascii_of_nat 13)
        else if Ascii.eqb e "t"%char then emit (ascii_of_nat 9)
        else if Ascii.eqb e "u"%char then
          let rr := getu4 s in
          if rr <? 0 then None else
          match rest' with
          | String _ (String _ (String _ (String _ r6))) =>
            let rr' := if IsSurrogate rr then ReplacementChar else rr in
            let dec := DecodeRune16 rr (getu4 r6) in
            if IsSurrogate rr && negb (dec =? ReplacementChar) then
              match r6 with
              | String _ (String _ (String _ (String _ (String _ (String _ r12))))) =>
                match unquote_loop r12 with
                | Some t => Some (EncodeRune dec ++ t)%string | None => None end
              | _ => None (* unreachable: getu4 r6 read six bytes *)
              end
            else
              match unquote_loop r6 with
              | Some t => Some (EncodeRune rr' ++ t)%string | None => None end
          | _ => None (* unreachable: getu4 s read six bytes *)
          end
        else None
      end
    else if Ascii.eqb c dquote || (bv c <? 32) then None
    else if bv c <? 128 then
      match unquote_loop rest with
      | Some t => Some (String c t) | None => None end
    else
      let k := fun r => match unquote_loop r with
                        | Some t => Some (EncodeRune (fst (DecodeRune s)) ++ t)%string
                        | None => None end in
      match snd (DecodeRune s), rest with
      | 1%nat, _ => k rest
      | 2%nat, String _ r2 => k r2
      | 3%nat, String _ (String _ r3) => k r3
      | 4%nat, String _ (String _ (String _ r4)) => k r4
      | _, _ => None (* unreachable: a decoded rune fits in s *)
      end
  end.

(** The first loop of [unquoteBytes]: the longest prefix with no
    backslash, quote, control byte or invalid UTF-8, and the rest. *)
Fixpoint plain_prefix (s : string) : string * string :=
  match s with
  | EmptyString => (EmptyString, EmptyString)
  | String c rest =>
    if Ascii.eqb c bslash || Ascii.eqb c dquote || (bv c <? 32) then
      (EmptyString, s)
    else if bv c <? 128 then
      let (p, q) := plain_prefix rest in (String c p, q)
    else
      match DecodeRune s, rest with
      | (_, 2%nat), String c1 r2 =>
          let (p, q) := plain_prefix r2 in (String c (String c1 p), q)
      | (_, 3%nat), String c1 (String c2 r3) =>
          let (p, q) := plain_prefix r3 in (String c (String c1 (String c2 p)), q)
      | (_, 4%nat), String c1 (String c2 (String c3 r4)) =>
          let (p, q) := plain_prefix r4 in
          (String c (String c1 (String c2 (String c3 p))), q)
      | _, _ => (EmptyString, s)
      end
  end.

(** [unquoteBytes] on the bytes between the quotes: the bytes themselves
    when no byte needs work, otherwise the plain prefix copied and the rest
    run through the loop. *)
Definition unquote (s : string) : option string :=
  let (p, q) := plain_prefix s in
  match q with
  | EmptyString => Some s
  | _ => match unquote_loop q with
         | Some t => Some (p ++ t)%string
         | None => None
         end
  end.

(** The error of [json.Unmarshal]: a [*SyntaxError] or an
    [*UnmarshalTypeError], whose kind and text are not modelled. *)
Inductive json_error := DecodeError.

Definition null_lit : string := "null".

(** [json.Unmarshal(data, &v)] for a Go [string] variable [v]: a string
    literal sets [v]; the literal [null] leaves [v] as it is, without an
    error; any other input (another JSON value, or invalid JSON) is an
    error and leaves [v] as it is. *)
Definition Unmarshal_string (data : string) (v : string) : string + json_error :=
  match skip_space data with
  | String c rest =>
    if Ascii.eqb c dquote then
      match scan_string rest with
      | Some (body, after) =>
        if all_space after then
          match unquote body with
          | Some u => inl u
          | None => inr DecodeError
          end
        else inr DecodeError
      | None => inr DecodeError
      end
    else if String.prefix null_lit (String c rest) &&
            all_space (substring 4 (String.length rest - 3) (String c rest))
    then inl v
    else inr DecodeError
  | EmptyString => inr DecodeError
  end.

End GoJSON.

(** [Compact.MarshalJSON]; the error is always [nil] for a string. *)
Definition MarshalJSON (iri : Compact) : string :=
  if (go_len (Seq iri) =? 0) then GoJSON.Marshal_string EmptyString
  else GoJSON.Marshal_string (to_String iri).

(** [Compact.UnmarshalJSON] on the receiver [*iri]: the new receiver and
    the returned error. *)
Definition UnmarshalJSON (b : string) (iri : Compact)
  : Compact * option GoJSON.json_error :=
  let path := EmptyString in
  match GoJSON.Unmarshal_string b path with
  | inr err => (iri, Some err)
  | inl path' => (ID (New path'), None)
  end.

(** ** DynamoDB attribute values *)

(** [dynamodb.AttributeValue], with the two fields the code reads or
    writes: [NULL] and [S], pointers ([None] is nil).  [S] is renamed
    [AV_S], as [S] is the successor of [nat]. *)
Record AttributeValue := { AV_NULL : option bool; AV_S : option string }.

(** [dynamodbattribute.Marshal] of a Go string (aws-sdk-go v1 encoder with
    its defaults): an empty string becomes a NULL attribute, any other
    string an S attribute.  It returns no error for a string. *)
Definition dynamo_Marshal_string (s : string) : AttributeValue :=
  match s with
  | EmptyString => {| AV_NULL := Some true; AV_S := None |}
  | _ => {| AV_NULL := None; AV_S := Some s |}
  end.

(** [Compact.MarshalDynamoDBAttributeValue(av)]: the attribute value [*av]
    after the call; the returned error is always nil. *)
Definition MarshalDynamoDBAttributeValue (iri : Compact) (av : AttributeValue)
  : AttributeValue :=
  if go_len (Seq iri) =? 0 then {| AV_NULL := Some true; AV_S := AV_S av |}
  else
    let val := dynamo_Marshal_string (to_String iri) in
    {| AV_NULL := AV_NULL av; AV_S := AV_S val |}.

(** [aws.StringValue]: the string a pointer points to, or [""] for nil. *)
Definition StringValue (p : option string) : string :=
  match p with Some s => s | None => EmptyString end.

(** [Compact.UnmarshalDynamoDBAttributeValue(av)]: the new receiver; the
    returned error is always nil. *)
Definition UnmarshalDynamoDBAttributeValue (av : AttributeValue) : Compact :=
  NewCompact (StringValue (AV_S av)).

(** ** path.Join and IRI.Path *)

Module GoPath.

Definition slash : ascii := "/"%char.
Definition dot : ascii := "."%char.

(** [for out.w > dotdot && out.index(out.w) != '/' { out.w-- }] after the
    first [out.w--]; the output buffer is kept reversed, its head is the
    last byte written. *)
Fixpoint backtrack (out : list ascii) (dotdot : nat) : list ascii :=
  match out with
  | [] => []
  | h :: t =>
      if Ascii.eqb h slash then t
      else if (dotdot <? length t)%nat then backtrack t dotdot else t
  end.

(** The bytes of a path element: up to the next ['/'] or the end. *)
Fixpoint span_elem (p : string) : string * string :=
  match p with
  | EmptyString => (EmptyString, EmptyString)
  | String c rest =>
      if Ascii.eqb c slash then (EmptyString, p)
      else let (e, r) := span_elem rest in (String c e, r)
  end.

Definition is_slash_head (p : string) : bool :=
  match p with String c _ => Ascii.eqb c slash | EmptyString => false end.

Definition is_dot_head (p : string) : bool :=
  match p with String c _ => Ascii.eqb c dot | EmptyString => false end.

(** The main loop of [path.Clean], on [path[r:]]; every iteration reads at
    least one byte, so [len(path)] iterations are enough. *)
Fixpoint clean_loop (fuel : nat) (rooted : bool) (p : string)
    (out : list ascii) (dotdot : nat) : list ascii :=
  match fuel with
  | O => out
  | S f =>
    match p with
    | EmptyString => out
    | String c rest =>
      if Ascii.eqb c slash then
        (* empty path element *)
        clean_loop f rooted rest out dotdot
      else if Ascii.eqb c dot && (String.eqb rest EmptyString || is_slash_head rest) then
        (* . element *)
        clean_loop f rooted rest out dotdot
      else if Ascii.eqb c dot && is_dot_head rest &&
              (String.eqb (substring 1 (String.length rest - 1) rest) EmptyString ||
               is_slash_head (substring 1 (String.length rest - 1) rest)) then
        (* .. element *)
        let rest2 := substring 1 (String.length rest - 1) rest in
        if (dotdot <? length out)%nat then
          clean_loop f rooted rest2 (backtrack out dotdot) dotdot
        else if negb rooted then
          let out1 := if (0 <? length out)%nat then slash :: out else out in
          let out2 := dot :: dot :: out1 in
          clean_loop f rooted rest2 out2 (length out2)
        else clean_loop f rooted rest2 out dotdot
      else
        (* real path element *)
        let out1 :=
          if (rooted && negb (length out =? 1)%nat) ||
             (negb rooted && negb (length out =? 0)%nat)
          then slash :: out else out in
        let (e, r) := span_elem p in
        clean_loop f rooted r (rev (list_ascii_of_string e) ++ out1) dotdot
    end
  end.

(** [path.Clean]. *)
Definition Clean (path : string) : string :=
  match path with
  | EmptyString => "."
  | String c rest =>
    let rooted := Ascii.eqb c slash in
    let out :=
      if rooted then clean_loop (String.length path) true rest [slash] 1
      else clean_loop (String.length path) false path [] 0 in
    match out with
    | [] => "."
    | _ => string_of_list_ascii (rev out)
    end
  end.

(** The buffer [path.Join] builds before cleaning. *)
Fixpoint join_buf (buf : string) (elems : list string) : string :=
  match elems with
  | [] => buf
  | e :: rest =>
    let buf' :=
      if (0 <? String.length buf)%nat || negb (String.eqb e EmptyString) then
        if (0 <? String.length buf)%nat then (buf ++ String slash e)%string
        else (buf ++ e)%string
      else buf in
    join_buf buf' rest
  end.

(** [path.Join(elem...)]. *)
Definition Join (elems : list string) : string :=
  let size := fold_left (fun n e => n + String.length e)%nat elems 0%nat in
  if (size =? 0)%nat then EmptyString else Clean (join_buf EmptyString elems).

(** Each segment with a ['/'] in front. *)
Definition slash_each (es : list string) : string :=
  fold_right (fun e acc => String slash (e ++ acc)) EmptyString es.

End GoPath.

(** [IRI.Path]. *)
Definition Path (iri : IRI) : string := GoPath.Join (Seq (ID iri)).

(** A segment [path.Join] keeps as it is: not empty, no ['/'], and neither
    ["."] nor [".."]. *)
Definition plain_segment (e : string) : bool :=
  negb (String.eqb e EmptyString) &&
  negb (existsb (fun c => Ascii.eqb c GoPath.slash) (list_ascii_of_string e)) &&
  negb (String.eqb e ".") && negb (String.eqb e "..").

(** ** Delimiter freedom *)

Fixpoint has_colon (s : string) : bool :=
  match s with
  | EmptyString => false
  | String c rest => Ascii.eqb c colon || has_colon rest
  end.

(** The number of [':'] bytes in a string. *)
Fixpoint count_colons (s : string) : nat :=
  match s with
  | EmptyString => 0
  | String c rest => (if Ascii.eqb c colon then 1 else 0) + count_colons rest
  end.

Definition colon_free (s : string) : Prop := has_colon s = false.

(** The growth rule of [runtime.growslice] for a slice of [string]
    (16 bytes an element) below 256 elements: the capacity doubles, or
    becomes the new length when that is more.  For the capacities used
    below the size classes round nothing. *)
Definition go_growcap (oldcap newlen : nat) : nat :=
  if (2 * oldcap <? newlen)%nat then newlen else (2 * oldcap)%nat.

(** The heaps and the slice headers a program can build from an empty
    heap by [NewCompact] calls and by [Parent] calls at any rank and
    [Heir] calls whose segments satisfy [ok], each on a value built
    before.  [Parent] checks [Seq[:n]] against the capacity, so a negative
    rank on a slice with room left reads past its length.  [growcap] is
    any growth rule of [append]. *)
Inductive heap_reach (growcap : nat -> nat -> nat) (ok : string -> Prop)
  : GoHeap.store -> list GoHeap.slice -> Prop :=
| hr_start : heap_reach growcap ok [] []
| hr_new : forall st vs s st' v,
    heap_reach growcap ok st vs -> GoHeap.NewCompact_h st s = (st', v) ->
    heap_reach growcap ok st' (v :: vs)
| hr_parent : forall st vs x rank st' v,
    heap_reach growcap ok st vs -> In x vs ->
    GoHeap.Parent_h growcap st x rank = Some (st', v) ->
    heap_reach growcap ok st' (v :: vs)
| hr_heir : forall st vs x seg st' v,
    heap_reach growcap ok st vs -> In x vs -> ok seg ->
    GoHeap.Heir_h growcap st x seg = (st', v) ->
    heap_reach growcap ok st' (v :: vs).

(** * Properties *)

(** ** Go integers and slices *)

Lemma int_sub_small (a b : Z) :
  int_min <= a - b <= int_max -> int_sub a b = a - b.
Proof.
  unfold int_sub, wrap64, int_min, int_max; intros H.
  rewrite Z.mod_small; lia.
Qed.

Lemma int_sub_nat (a b : Z) :
  0 <= a <= int_max -> 0 <= b <= int_max -> int_sub a b = a - b.
Proof. intros; apply int_sub_small; unfold int_min, int_max in *; lia. Qed.

Lemma go_len_nonneg {A} (l : list A) : 0 <= go_len l.
Proof. unfold go_len; lia. Qed.

Lemma slice_to_ok {A} (l : list A) (hi : Z) :
  0 <= hi <= go_len l -> slice_to l hi = Some (firstn (Z.to_nat hi) l).
Proof.
  unfold slice_to; intros H.
  replace ((0 <=? hi) && (hi <=? go_len l)) with true; [reflexivity|].
  symmetry; apply andb_true_iff; split; apply Z.leb_le; lia.
Qed.

Lemma slice_to_panics {A} (l : list A) (hi : Z) :
  go_len l < hi -> slice_to l hi = None.
Proof.
  unfold slice_to; intros H.
  replace (hi <=? go_len l) with false by (symmetry; apply Z.leb_gt; lia).
  now rewrite andb_false_r.
Qed.

Lemma slice_ok {A} (l : list A) (lo : Z) :
  0 <= lo <= go_len l ->
  slice l lo (go_len l) = Some (skipn (Z.to_nat lo) l).
Proof.
  unfold slice, go_len; intros H.
  replace ((0 <=? lo) && (lo <=? Z.of_nat (length l)) &&
           (Z.of_nat (length l) <=? Z.of_nat (length l))) with true.
  - f_equal. rewrite firstn_all2; [reflexivity|].
    rewrite length_skipn. lia.
  - symmetry. rewrite !andb_true_iff, !Z.leb_le. lia.
Qed.

Lemma slice_panics {A} (l : list A) (lo hi : Z) :
  hi < lo -> slice l lo hi = None.
Proof.
  unfold slice; intros H.
  replace (lo <=? hi) with false by (symmetry; apply Z.leb_gt; lia).
  now rewrite andb_false_r.
Qed.

(** ** Prefix, Suffix and Parent at a non-negative rank *)

Lemma Prefix_nonneg (x : Compact) (r : Z) :
  0 <= r <= int_max -> go_len (Seq x) <= int_max ->
  Prefix x [r] =
  Some (if (r =? 1) && (go_len (Seq x) =? 1) then Join (Seq x) ":"
        else if go_len (Seq x) - r <? 0 then EmptyString
        else Join (firstn (Z.to_nat (go_len (Seq x) - r)) (Seq x)) ":").
Proof.
  intros Hr Hx. unfold Prefix; simpl rank_of.
  pose proof (go_len_nonneg (Seq x)).
  rewrite int_sub_nat by lia.
  destruct ((r =? 1) && (go_len (Seq x) =? 1)); [reflexivity|].
  destruct (go_len (Seq x) - r <? 0) eqn:E; [reflexivity|].
  apply Z.ltb_ge in E. rewrite slice_to_ok by lia. reflexivity.
Qed.

Lemma Suffix_nonneg (x : Compact) (r : Z) :
  0 <= r <= int_max -> go_len (Seq x) <= int_max ->
  Suffix x [r] =
  Some (if go_len (Seq x) =? 1 then EmptyString
        else Join (skipn (Z.to_nat (Z.max 0 (go_len (Seq x) - r))) (Seq x)) ":").
Proof.
  intros Hr Hx. unfold Suffix; simpl rank_of.
  pose proof (go_len_nonneg (Seq x)).
  destruct (go_len (Seq x) =? 1); [reflexivity|].
  rewrite int_sub_nat by lia.
  destruct (go_len (Seq x) - r <? 0) eqn:E.
  - apply Z.ltb_lt in E. rewrite slice_ok by lia.
    replace (Z.max 0 (go_len (Seq x) - r)) with 0 by lia. reflexivity.
  - apply Z.ltb_ge in E. rewrite slice_ok by lia.
    replace (Z.max 0 (go_len (Seq x) - r)) with (go_len (Seq x) - r) by lia.
    reflexivity.
Qed.

Lemma Parent_nonneg (x : Compact) (r : Z) :
  0 <= r <= int_max -> go_len (Seq x) <= int_max ->
  Parent x [r] =
  Some (if go_len (Seq x) - r <=? 0 then root
        else {| Seq := firstn (Z.to_nat (go_len (Seq x) - r)) (Seq x) |}).
Proof.
  intros Hr Hx. unfold Parent; simpl rank_of.
  pose proof (go_len_nonneg (Seq x)).
  rewrite int_sub_nat by lia.
  destruct (go_len (Seq x) - r <=? 0) eqn:E; [reflexivity|].
  apply Z.leb_gt in E. rewrite slice_to_ok by lia. reflexivity.
Qed.

Lemma Prefix_default (x : Compact) : Prefix x [] = Prefix x [1].
Proof. reflexivity. Qed.

Lemma Suffix_default (x : Compact) : Suffix x [] = Suffix x [1].
Proof. reflexivity. Qed.

Lemma Parent_default (x : Compact) : Parent x [] = Parent x [1].
Proof. reflexivity. Qed.

(** ** Split and Join *)

Lemma Split_nonempty (s : string) : exists h t, Split s colon = h :: t.
Proof.
  induction s as [|c s IH]; simpl.
  - eauto.
  - destruct (Ascii.eqb c colon); [eauto|].
    destruct IH as [h [t ->]]; eauto.
Qed.

Lemma Join_cons_char (c : ascii) (h : string) (t : list string) :
  Join (String c h :: t) ":" = String c (Join (h :: t) ":").
Proof. destruct t; reflexivity. Qed.

Lemma Join_cons_cons (e h : string) (t : list string) (sep : string) :
  Join (e :: h :: t) sep = (e ++ sep ++ Join (h :: t) sep)%string.
Proof. reflexivity. Qed.

Lemma Join_Split (s : string) : Join (Split s colon) ":" = s.
Proof.
  induction s as [|c s IH]; [reflexivity|]. simpl.
  destruct (Ascii.eqb c colon) eqn:E.
  - apply Ascii.eqb_eq in E; subst c.
    destruct (Split_nonempty s) as [h [t Ht]]. rewrite Ht in *.
    rewrite Join_cons_cons, IH. reflexivity.
  - destruct (Split_nonempty s) as [h [t Ht]]. rewrite Ht in *.
    rewrite Join_cons_char, IH. reflexivity.
Qed.

(** ** Eq is reflexive *)

Lemma eq_loop_refl (vs pre : list string) :
  eq_loop (length pre) vs (pre ++ vs) = true.
Proof.
  revert pre; induction vs as [|v vs IH]; intros pre; [reflexivity|].
  simpl. rewrite nth_error_app2, Nat.sub_diag by lia. simpl.
  rewrite String.eqb_refl.
  replace (pre ++ v :: vs) with ((pre ++ [v]) ++ vs)
    by (rewrite <- app_assoc; reflexivity).
  replace (S (length pre)) with (length (pre ++ [v]))
    by (rewrite length_app; simpl; lia).
  apply IH.
Qed.

Lemma Eq_refl (x : Compact) : Eq x x = true.
Proof.
  unfold Eq. rewrite Z.eqb_refl. simpl.
  apply (eq_loop_refl (Seq x) []).
Qed.

(** ** Delimiter freedom *)

Lemma Split_colon_free (s : string) : Forall colon_free (Split s colon).
Proof.
  induction s as [|c s IH]; simpl.
  - repeat constructor.
  - destruct (Ascii.eqb c colon) eqn:E.
    + constructor; [reflexivity | exact IH].
    + destruct (Split s colon) as [|h t]; constructor.
      * unfold colon_free; simpl; rewrite E; reflexivity.
      * constructor.
      * inversion IH; subst. unfold colon_free in *; simpl.
        rewrite E; assumption.
      * inversion IH; assumption.
Qed.

Lemma Forall_firstn' {A} (P : A -> Prop) (n : nat) (l : list A) :
  Forall P l -> Forall P (firstn n l).
Proof.
  revert l; induction n as [|n IH]; intros l H; [constructor|].
  destruct l; simpl; [constructor|]. inversion H; subst. constructor; auto.
Qed.

Lemma Parent_colon_free (x : Compact) (rank : list Z) (y : Compact) :
  Forall colon_free (Seq x) -> Parent x rank = Some y ->
  Forall colon_free (Seq y).
Proof.
  unfold Parent; intros Hx Hp.
  destruct (int_sub (go_len (Seq x)) (rank_of rank) <=? 0).
  - injection Hp as <-. repeat constructor.
  - unfold slice_to in Hp.
    destruct (_ && _); [|discriminate].
    injection Hp as <-. simpl. apply Forall_firstn'. assumption.
Qed.

Lemma Heir_colon_free (x : Compact) (seg : string) :
  Forall colon_free (Seq x) -> colon_free seg ->
  Forall colon_free (Seq (Heir x seg)).
Proof.
  unfold Heir; intros Hx Hs.
  destruct (_ && _); simpl.
  - repeat constructor; assumption.
  - apply Forall_app; split; [assumption | repeat constructor; assumption].
Qed.

Example split_abc : Seq (NewCompact "a:b:c") = ["a"; "b"; "c"]%string.
Proof. reflexivity. Qed.

Example prefix_table :
  map (Prefix (NewCompact "a:b:c:d:e")) [[]; [1]; [2]; [3]; [4]; [5]]%Z
  = map Some ["a:b:c:d"; "a:b:c:d"; "a:b:c"; "a:b"; "a"; ""]%string.
Proof. reflexivity. Qed.

Example suffix_table :
  map (Suffix (NewCompact "a:b:c:d:e")) [[]; [1]; [2]; [3]; [4]; [5]]%Z
  = map Some ["e"; "e"; "d:e"; "c:d:e"; "b:c:d:e"; "a:b:c:d:e"]%string.
Proof. reflexivity. Qed.

Example parent_r3 : Parent (NewCompact "a:b:c") [] = Some (NewCompact "a:b").
Proof. reflexivity. Qed.

Example heir_r0 : Heir (NewCompact "") "a" = NewCompact "a".
Proof. reflexivity. Qed.

(** ** Backing arrays *)

Module HeapFacts.
Import GoHeap.

Lemma firstn_app_app {A} (l1 l2 l3 : list A) :
  firstn (length l1 + length l2) (l1 ++ l2 ++ l3) = l1 ++ l2.
Proof.
  rewrite app_assoc, firstn_app, <- length_app, Nat.sub_diag, firstn_all.
  simpl. apply app_nil_r.
Qed.

Lemma preserves_refl (st : store) : preserves st st.
Proof. split; auto. Qed.

Lemma preserves_trans (st1 st2 st3 : store) :
  preserves st1 st2 -> preserves st2 st3 -> preserves st1 st3.
Proof.
  intros [L12 H12] [L23 H23]; split; [lia|].
  intros a Ha. rewrite H23 by lia. auto.
Qed.

Lemma alloc_preserves (st : store) (v : list string) :
  preserves st (fst (alloc st v)) /\
  length (fst (alloc st v)) = S (length st) /\
  backing (fst (alloc st v)) (length st) = v.
Proof.
  unfold preserves, alloc, backing; simpl. rewrite length_app; simpl.
  split; [split; [lia|] | split; [lia|]].
  - intros a Ha. apply app_nth1; assumption.
  - rewrite app_nth2, Nat.sub_diag by lia. reflexivity.
Qed.

Lemma set_backing_spec (st : store) (b : nat) (v : list string) :
  (b < length st)%nat ->
  length (set_backing st b v) = length st /\
  backing (set_backing st b v) b = v /\
  (forall a, a <> b -> backing (set_backing st b v) a = backing st a).
Proof.
  intros Hb. unfold set_backing, backing.
  assert (Hf : length (firstn b st) = b) by (apply firstn_length_le; lia).
  split; [|split].
  - rewrite !length_app, length_skipn. simpl. lia.
  - rewrite app_nth2, Hf, Nat.sub_diag by lia. reflexivity.
  - intros a Hab. destruct (Nat.lt_ge_cases a b).
    + rewrite app_nth1 by lia. rewrite <- (firstn_skipn b st) at 2.
      rewrite app_nth1 by lia. reflexivity.
    + rewrite app_nth2 by lia. rewrite Hf.
      destruct (a - b)%nat as [|k] eqn:E; [lia|]. cbn [app nth].
      rewrite nth_skipn. f_equal. lia.
Qed.

Lemma read_length (st : store) (s : slice) :
  wf_slice st s -> length (read st s) = len s.
Proof.
  intros (_ & Hlc & Hoc). unfold read.
  apply firstn_length_le. rewrite length_skipn. lia.
Qed.

Lemma read_preserved (st st' : store) (s : slice) :
  preserves st st' -> wf_slice st s -> read st' s = read st s.
Proof.
  intros [_ H] (Ha & _ & _). unfold read. rewrite H by assumption. reflexivity.
Qed.

Lemma wf_preserved (st st' : store) (s : slice) :
  preserves st st' -> wf_slice st s -> wf_slice st' s.
Proof.
  intros [L H] (Ha & Hlc & Hoc). split; [lia|]. split; [assumption|].
  rewrite H by assumption. assumption.
Qed.

Section Growth.

Variable growcap : nat -> nat -> nat.
Hypothesis growcap_ge : forall c n, (n <= growcap c n)%nat.

(** [append] only writes to the array of its slice, or allocates. *)
Lemma append_spec (st0 st : store) (s : slice) (xs : list string) :
  wf_slice st s -> (length st0 <= arr s)%nat -> preserves st0 st ->
  let r := append growcap st s xs in
  preserves st0 (fst r) /\ (length st0 <= arr (snd r))%nat /\
  read (fst r) (snd r) = read st s ++ xs /\ wf_slice (fst r) (snd r).
Proof.
  intros Hwf Hfresh Hpres. pose proof (read_length st s Hwf) as Hrl.
  destruct Hwf as (Ha & Hlc & Hoc).
  unfold append. destruct (Nat.leb_spec (len s + length xs) (cap s)) as [Hc|Hc].
  - (* in place *)
    set (a := backing st (arr s)) in *.
    set (a' := firstn (off s + len s) a ++ xs ++ skipn (off s + len s + length xs) a).
    destruct (set_backing_spec st (arr s) a' Ha) as (Hl & Hb & Ho).
    assert (Hla' : length a' = length a).
    { unfold a'. rewrite !length_app, length_skipn, firstn_length_le by lia. lia. }
    simpl. split; [|split; [assumption|split]].
    + destruct Hpres as [L P]. split; [lia|].
      intros b Hb'. rewrite Ho by lia. auto.
    + unfold read at 1. simpl. rewrite Hb. unfold a'.
      rewrite skipn_app, firstn_length_le by lia.
      replace (off s - (off s + len s))%nat with 0%nat by lia. simpl skipn.
      rewrite skipn_firstn_comm.
      replace (off s + len s - off s)%nat with (len s) by lia.
      change (firstn (len s) (skipn (off s) a)) with (read st s).
      rewrite <- Hrl. apply firstn_app_app.
    + split; [simpl; lia|]. simpl. split; [assumption|].
      rewrite Hb, Hla'. assumption.
  - (* reallocation *)
    set (nc := growcap (cap s) (len s + length xs)).
    set (v := read st s ++ xs ++ repeat EmptyString (nc - (len s + length xs))).
    destruct (alloc_preserves st v) as (Hp & Hl & Hb).
    simpl in Hp, Hl, Hb |- *. split; [|split; [|split]].
    + eapply preserves_trans; eassumption.
    + destruct Hpres; lia.
    + unfold read at 1. simpl. rewrite Hb. unfold v. rewrite <- Hrl.
      apply firstn_app_app.
    + assert (len s + length xs <= nc)%nat by apply growcap_ge.
      split; [simpl in Hl |- *; lia|]. split; [simpl; assumption|].
      simpl. rewrite Hb. unfold v. rewrite !length_app, repeat_length. lia.
Qed.

Lemma empty_lit_spec (st : store) :
  let r := empty_lit st in
  preserves st (fst r) /\ arr (snd r) = length st /\ read (fst r) (snd r) = [] /\
  wf_slice (fst r) (snd r).
Proof.
  destruct (alloc_preserves st []) as (Hp & Hl & Hb).
  unfold empty_lit; simpl in *.
  split; [assumption|split; [reflexivity|split; [reflexivity|]]].
  unfold wf_slice; simpl. rewrite Hl, Hb. simpl. lia.
Qed.

Lemma lit1_spec (st : store) (x : string) :
  let r := lit1 st x in
  preserves st (fst r) /\ arr (snd r) = length st /\ read (fst r) (snd r) = [x] /\
  wf_slice (fst r) (snd r).
Proof.
  destruct (alloc_preserves st [x]) as (Hp & Hl & Hb).
  unfold lit1; simpl in *.
  split; [assumption|split; [reflexivity|split]].
  - unfold read; simpl. rewrite Hb. reflexivity.
  - unfold wf_slice; simpl. rewrite Hl, Hb. simpl. lia.
Qed.

(** [append(append([]string{}, xs...), ys...)]. *)
Lemma copy_append_spec (st : store) (xs ys : list string) :
  let r1 := empty_lit st in
  let r2 := append growcap (fst r1) (snd r1) xs in
  let r3 := append growcap (fst r2) (snd r2) ys in
  preserves st (fst r3) /\ (length st <= arr (snd r3))%nat /\
  read (fst r3) (snd r3) = xs ++ ys /\ wf_slice (fst r3) (snd r3).
Proof.
  destruct (empty_lit_spec st) as (P1 & A1 & R1 & W1).
  destruct (append_spec st _ _ xs W1 ltac:(lia) P1) as (P2 & A2 & R2 & W2).
  destruct (append_spec st _ _ ys W2 A2 P2) as (P3 & A3 & R3 & W3).
  cbv zeta. split; [assumption|split; [assumption|split; [|assumption]]].
  rewrite R3, R2, R1. reflexivity.
Qed.

Lemma Heir_h_spec (st : store) (x : slice) (seg : string) :
  wf_slice st x ->
  let r := Heir_h growcap st x seg in
  read (fst r) (snd r) =
    (if list_eq_dec string_dec (read st x) [EmptyString] then [seg]
     else read st x ++ [seg]) /\
  preserves st (fst r) /\ (length st <= arr (snd r))%nat /\
  wf_slice (fst r) (snd r).
Proof.
  intros Hwf. pose proof (read_length st x Hwf) as Hrl.
  unfold Heir_h.
  destruct (_ && _) eqn:Hc.
  - apply andb_true_iff in Hc as [H1 H2]. apply Z.eqb_eq in H1.
    destruct (read st x) as [|s0 [|s1 t]] eqn:R; simpl in Hrl;
      [discriminate H2| |lia].
    apply String.eqb_eq in H2; subst s0.
    destruct (lit1_spec st seg) as (P & A & Rd & W).
    split; [exact Rd|split; [assumption|split; [lia|assumption]]].
  - destruct (copy_append_spec st (read st x) [seg]) as (P & A & Rd & W).
    destruct (empty_lit st) as [st1 e]. simpl in *.
    destruct (append growcap st1 e (read st x)) as [st2 c]. simpl in *.
    split; [|split; [assumption|split; assumption]].
    rewrite Rd. destruct (list_eq_dec string_dec (read st x) [EmptyString]) as [E|E];
      [|reflexivity].
    exfalso. rewrite E in Hrl. simpl in Hrl.
    rewrite E in Hc. simpl in Hc. rewrite <- Hrl in Hc. discriminate Hc.
Qed.

Lemma Parent_h_spec (st : store) (x : slice) (r : Z) :
  wf_slice st x -> 0 <= r <= int_max -> Z.of_nat (len x) <= int_max ->
  exists st' y, Parent_h growcap st x [r] = Some (st', y) /\
    read st' y =
      (if Z.of_nat (len x) - r <=? 0 then [EmptyString]
       else firstn (Z.to_nat (Z.of_nat (len x) - r)) (read st x)) /\
    preserves st st' /\ (length st <= arr y)%nat /\ wf_slice st' y.
Proof.
  intros Hwf Hr Hx. unfold Parent_h; simpl rank_of.
  rewrite int_sub_nat by lia.
  destruct (Z.of_nat (len x) - r <=? 0) eqn:E.
  - destruct (lit1_spec st EmptyString) as (P & A & Rd & W).
    destruct (lit1 st EmptyString) as [st' y]. simpl in *.
    exists st', y. split; [reflexivity|].
    split; [exact Rd|split; [assumption|split; [lia|assumption]]].
  - apply Z.leb_gt in E.
    assert (Hs : slice_to_h x (Z.of_nat (len x) - r) =
                 Some {| arr := arr x; off := off x;
                         len := Z.to_nat (Z.of_nat (len x) - r); cap := cap x |}).
    { unfold slice_to_h. destruct Hwf as (_ & Hlc & _).
      replace ((0 <=? Z.of_nat (len x) - r) &&
               (Z.of_nat (len x) - r <=? Z.of_nat (cap x))) with true;
        [reflexivity|].
      symmetry; rewrite andb_true_iff, !Z.leb_le; lia. }
    rewrite Hs.
    destruct (empty_lit_spec st) as (P1 & A1 & R1 & W1).
    set (p := {| arr := arr x; off := off x;
                 len := Z.to_nat (Z.of_nat (len x) - r); cap := cap x |}).
    assert (Hp : read (fst (empty_lit st)) p =
                 firstn (Z.to_nat (Z.of_nat (len x) - r)) (read st x)).
    { destruct Hwf as (Ha & _ & _). destruct P1 as [_ P1].
      unfold read at 1; simpl. rewrite P1 by assumption.
      unfold read. rewrite firstn_firstn. f_equal. lia. }
    destruct (append_spec st _ _ (read (fst (empty_lit st)) p) W1 ltac:(lia) P1)
      as (P2 & A2 & R2 & W2).
    destruct (empty_lit st) as [st1 e]. simpl in *.
    destruct (append growcap st1 e (read st1 p)) as [st2 y]. simpl in *.
    do 2 eexists; split; [reflexivity|].
    split; [rewrite R2, R1, Hp; reflexivity|].
    split; [assumption|split; assumption].
Qed.

End Growth.

End HeapFacts.

(** ** UTF-8 arithmetic *)

Module UTF8Facts.
Import GoJSON.

Lemma lor_add (a b k : Z) :
  0 <= k -> a mod 2 ^ k = 0 -> 0 <= b < 2 ^ k -> Z.lor a b = a + b.
Proof.
  intros Hk Ha Hb.
  assert (Hland : Z.land a b = 0).
  { rewrite <- (Z.mod_small b (2 ^ k)) by lia. rewrite <- Z.land_ones by lia.
    rewrite (Z.land_comm b), Z.land_assoc, Z.land_ones, Ha by lia.
    apply Z.land_0_l. }
  rewrite <- Z.lxor_lor by assumption.
  symmetry; apply Z.add_nocarry_lxor; assumption.
Qed.

Ltac pow_consts :=
  repeat match goal with
         | |- context [2 ^ ?k] =>
             let v := eval compute in (2 ^ k) in change (2 ^ k) with v
         end.

Ltac arith := pow_consts; Z.div_mod_to_equations; lia.

Lemma bv_bound (c : ascii) : 0 <= bv c < 256.
Proof.
  unfold bv. pose proof (N_ascii_bounded c). lia.
Qed.

Lemma chr_bv (c : ascii) : chr (bv c) = c.
Proof.
  unfold chr, bv. pose proof (N_ascii_bounded c).
  rewrite Z.mod_small by lia. rewrite N2Z.id. apply ascii_N_embedding.
Qed.

Lemma chr_eq (z : Z) (c : ascii) : z = bv c -> chr z = c.
Proof. intros ->; apply chr_bv. Qed.

(** The values [DecodeRune] assembles. *)
Lemma val2 (b0 b1 : Z) :
  192 <= b0 < 224 -> 128 <= b1 < 192 ->
  Z.lor (Z.shiftl (Z.land b0 31) 6) (Z.land b1 63) = (b0 - 192) * 64 + (b1 - 128).
Proof.
  intros H0 H1.
  change 31 with (Z.ones 5); change 63 with (Z.ones 6).
  rewrite !Z.land_ones, Z.shiftl_mul_pow2 by lia.
  rewrite (lor_add _ _ 6) by arith. arith.
Qed.

Lemma val3 (b0 b1 b2 : Z) :
  224 <= b0 < 240 -> 128 <= b1 < 192 -> 128 <= b2 < 192 ->
  Z.lor (Z.lor (Z.shiftl (Z.land b0 15) 12) (Z.shiftl (Z.land b1 63) 6))
        (Z.land b2 63)
  = (b0 - 224) * 4096 + (b1 - 128) * 64 + (b2 - 128).
Proof.
  intros H0 H1 H2.
  change 15 with (Z.ones 4); change 63 with (Z.ones 6).
  rewrite !Z.land_ones, !Z.shiftl_mul_pow2 by lia.
  rewrite (lor_add (b0 mod 2 ^ 4 * 2 ^ 12) _ 12) by arith.
  rewrite (lor_add _ _ 6) by arith. arith.
Qed.

Lemma val4 (b0 b1 b2 b3 : Z) :
  240 <= b0 < 248 -> 128 <= b1 < 192 -> 128 <= b2 < 192 -> 128 <= b3 < 192 ->
  Z.lor (Z.lor (Z.lor (Z.shiftl (Z.land b0 7) 18) (Z.shiftl (Z.land b1 63) 12))
               (Z.shiftl (Z.land b2 63) 6)) (Z.land b3 63)
  = (b0 - 240) * 262144 + (b1 - 128) * 4096 + (b2 - 128) * 64 + (b3 - 128).
Proof.
  intros H0 H1 H2 H3.
  change 7 with (Z.ones 3); change 63 with (Z.ones 6).
  rewrite !Z.land_ones, !Z.shiftl_mul_pow2 by lia.
  rewrite (lor_add (b0 mod 2 ^ 3 * 2 ^ 18) _ 18) by arith.
  rewrite (lor_add (b0 mod 2 ^ 3 * 2 ^ 18 + b1 mod 2 ^ 6 * 2 ^ 12) _ 12) by arith.
  rewrite (lor_add _ _ 6) by arith. arith.
Qed.

(** The bytes [EncodeRune] writes, by range. *)
Lemma EncodeRune_2 (r : Z) :
  128 <= r <= 2047 ->
  EncodeRune r = String (chr (192 + r / 64)) (str1 (chr (128 + r mod 64))).
Proof.
  intros H. unfold EncodeRune.
  rewrite (Z.mod_small r) by arith.
  replace (r <=? 127) with false by (symmetry; apply Z.leb_gt; lia).
  replace (r <=? 2047) with true by (symmetry; apply Z.leb_le; lia).
  rewrite Z.shiftr_div_pow2 by lia.
  rewrite (lor_add 192 _ 6) by arith.
  change 63 with (Z.ones 6). rewrite Z.land_ones by lia.
  rewrite (lor_add 128 _ 6) by arith.
  f_equal; [|f_equal]; f_equal; arith.
Qed.

Lemma EncodeRune_3 (r : Z) :
  2048 <= r <= 65535 -> ~ (55296 <= r <= 57343) ->
  EncodeRune r =
  String (chr (224 + r / 4096))
    (String (chr (128 + (r / 64) mod 64)) (str1 (chr (128 + r mod 64)))).
Proof.
  intros H Hs. unfold EncodeRune.
  rewrite (Z.mod_small r) by arith.
  replace (r <=? 127) with false by (symmetry; apply Z.leb_gt; lia).
  replace (r <=? 2047) with false by (symmetry; apply Z.leb_gt; lia).
  replace ((1114111 <? r) || ((55296 <=? r) && (r <=? 57343))) with false
    by (symmetry; apply orb_false_iff; split;
        [apply Z.ltb_ge; lia | apply andb_false_iff;
         destruct (Z.leb_spec 55296 r); [right; apply Z.leb_gt; lia | left; reflexivity]]).
  replace (r <=? 65535) with true by (symmetry; apply Z.leb_le; lia).
  unfold enc3. rewrite !Z.shiftr_div_pow2 by lia.
  change 63 with (Z.ones 6). rewrite !Z.land_ones by lia.
  rewrite (lor_add 224 _ 4) by arith.
  rewrite !(lor_add 128 _ 6) by arith.
  f_equal; [|f_equal; [|f_equal]]; f_equal; arith.
Qed.

Lemma EncodeRune_4 (r : Z) :
  65536 <= r <= 1114111 ->
  EncodeRune r =
  String (chr (240 + r / 262144))
    (String (chr (128 + (r / 4096) mod 64))
      (String (chr (128 + (r / 64) mod 64)) (str1 (chr (128 + r mod 64))))).
Proof.
  intros H. unfold EncodeRune.
  rewrite (Z.mod_small r) by arith.
  replace (r <=? 127) with false by (symmetry; apply Z.leb_gt; lia).
  replace (r <=? 2047) with false by (symmetry; apply Z.leb_gt; lia).
  replace ((1114111 <? r) || ((55296 <=? r) && (r <=? 57343))) with false
    by (symmetry; apply orb_false_iff; split;
        [apply Z.ltb_ge; lia | apply andb_false_iff; right; apply Z.leb_gt; lia]).
  replace (r <=? 65535) with false by (symmetry; apply Z.leb_gt; lia).
  rewrite !Z.shiftr_div_pow2 by lia.
  change 63 with (Z.ones 6). rewrite !Z.land_ones by lia.
  rewrite (lor_add 240 _ 3) by arith.
  rewrite !(lor_add 128 _ 6) by arith.
  f_equal; [|f_equal; [|f_equal; [|f_equal]]]; f_equal; arith.
Qed.

(** The well-formed sequences of two, three and four bytes, as
    [utf8.first] and [utf8.acceptRanges] admit them. *)
Definition ok2 (b0 b1 : Z) : Prop := 194 <= b0 <= 223 /\ 128 <= b1 <= 191.

Definition ok3 (b0 b1 b2 : Z) : Prop :=
  ((b0 = 224 /\ 160 <= b1 <= 191) \/ (225 <= b0 <= 236 /\ 128 <= b1 <= 191) \/
   (b0 = 237 /\ 128 <= b1 <= 159) \/ (238 <= b0 <= 239 /\ 128 <= b1 <= 191)) /\
  128 <= b2 <= 191.

Definition ok4 (b0 b1 b2 b3 : Z) : Prop :=
  ((b0 = 240 /\ 144 <= b1 <= 191) \/ (241 <= b0 <= 243 /\ 128 <= b1 <= 191) \/
   (b0 = 244 /\ 128 <= b1 <= 143)) /\
  128 <= b2 <= 191 /\ 128 <= b3 <= 191.

Definition rune2 (b0 b1 : Z) : Z := (b0 - 192) * 64 + (b1 - 128).
Definition rune3 (b0 b1 b2 : Z) : Z :=
  (b0 - 224) * 4096 + (b1 - 128) * 64 + (b2 - 128).
Definition rune4 (b0 b1 b2 b3 : Z) : Z :=
  (b0 - 240) * 262144 + (b1 - 128) * 4096 + (b2 - 128) * 64 + (b3 - 128).

Ltac zbool :=
  repeat (first
    [ rewrite (proj2 (Z.ltb_lt _ _)) by lia
    | rewrite (proj2 (Z.ltb_ge _ _)) by lia
    | rewrite (proj2 (Z.leb_le _ _)) by lia
    | rewrite (proj2 (Z.leb_gt _ _)) by lia
    | rewrite (proj2 (Z.eqb_eq _ _)) by lia
    | rewrite (proj2 (Z.eqb_neq _ _)) by lia ];
    cbn [orb andb negb Nat.ltb Nat.leb]).

Lemma Dec2 (c c1 : ascii) (Y : string) :
  ok2 (bv c) (bv c1) ->
  DecodeRune (String c (String c1 Y)) = (rune2 (bv c) (bv c1), 2%nat).
Proof.
  unfold ok2, rune2; intros [H0 H1].
  unfold DecodeRune, first, not_cont; cbn [String.length byte_at String.get].
  cbn [Nat.ltb Nat.leb]. zbool. f_equal. apply val2; lia.
Qed.

Lemma Dec3 (c c1 c2 : ascii) (Y : string) :
  ok3 (bv c) (bv c1) (bv c2) ->
  DecodeRune (String c (String c1 (String c2 Y))) =
  (rune3 (bv c) (bv c1) (bv c2), 3%nat).
Proof.
  unfold ok3, rune3; intros [H01 H2].
  unfold DecodeRune, first, not_cont; cbn [String.length byte_at String.get].
  cbn [Nat.ltb Nat.leb].
  destruct H01 as [H|[H|[H|H]]]; zbool; f_equal; apply val3; lia.
Qed.

Lemma Dec4 (c c1 c2 c3 : ascii) (Y : string) :
  ok4 (bv c) (bv c1) (bv c2) (bv c3) ->
  DecodeRune (String c (String c1 (String c2 (String c3 Y)))) =
  (rune4 (bv c) (bv c1) (bv c2) (bv c3), 4%nat).
Proof.
  unfold ok4, rune4; intros [H01 [H2 H3]].
  unfold DecodeRune, first, not_cont; cbn [String.length byte_at String.get].
  cbn [Nat.ltb Nat.leb].
  destruct H01 as [H|[H|H]]; zbool; f_equal; apply val4; lia.
Qed.

Lemma DecodeRune_cases (c : ascii) (rest : string) :
  128 <= bv c ->
  DecodeRune (String c rest) = (RuneError, 1%nat) \/
  (exists c1 t, rest = String c1 t /\ ok2 (bv c) (bv c1)) \/
  (exists c1 c2 t, rest = String c1 (String c2 t) /\ ok3 (bv c) (bv c1) (bv c2)) \/
  (exists c1 c2 c3 t, rest = String c1 (String c2 (String c3 t)) /\
                      ok4 (bv c) (bv c1) (bv c2) (bv c3)).
Proof.
  intros H.
  destruct rest as [|c1 [|c2 [|c3 t]]];
    unfold DecodeRune, first, not_cont; cbn [String.length byte_at String.get];
    cbn [Nat.ltb Nat.leb];
    repeat (match goal with
            | |- context [?a <? ?b] => destruct (Z.ltb_spec a b)
            | |- context [?a <=? ?b] => destruct (Z.leb_spec a b)
            | |- context [?a =? ?b] => destruct (Z.eqb_spec a b)
            end; cbn [orb andb negb Nat.ltb Nat.leb]);
    first
      [ lia
      | left; reflexivity
      | right; left; do 2 eexists; split; [reflexivity | unfold ok2; lia]
      | right; right; left; do 3 eexists; split; [reflexivity | unfold ok3; lia]
      | right; right; right; do 4 eexists; split; [reflexivity | unfold ok4; lia] ].
Qed.

Lemma first_size (b : Z) sz lo hi :
  first b = Some (sz, lo, hi) -> (2 <= sz <= 4)%nat.
Proof.
  unfold first; intros H.
  repeat match type of H with
         | context [if ?x then _ else _] => destruct x
         end; inversion H; lia.
Qed.

(** [appendString] decodes from at most four bytes: the same rune. *)
Lemma DecodeRune_prefix4 (s : string) :
  DecodeRune (substring 0 4 s) = DecodeRune s.
Proof.
  destruct s as [|c0 [|c1 [|c2 [|c3 t]]]]; try reflexivity.
  unfold DecodeRune. cbn [substring String.length byte_at String.get].
  destruct (bv c0 <? 128); [reflexivity|].
  destruct (first (bv c0)) as [[[sz lo] hi]|] eqn:Hf; [|reflexivity].
  apply first_size in Hf.
  destruct sz as [|[|[|[|[|sz]]]]]; try lia; reflexivity.
Qed.

(** Encoding the decoded rune gives the bytes back. *)
Lemma Enc2 (c c1 : ascii) :
  ok2 (bv c) (bv c1) -> EncodeRune (rune2 (bv c) (bv c1)) = String c (str1 c1).
Proof.
  unfold ok2, rune2; intros H.
  rewrite EncodeRune_2 by lia.
  f_equal; [|f_equal]; apply chr_eq; arith.
Qed.

Lemma rune3_range (b0 b1 b2 : Z) :
  ok3 b0 b1 b2 ->
  2048 <= rune3 b0 b1 b2 <= 65535 /\ ~ (55296 <= rune3 b0 b1 b2 <= 57343).
Proof. unfold ok3, rune3; lia. Qed.

Lemma Enc3 (c c1 c2 : ascii) :
  ok3 (bv c) (bv c1) (bv c2) ->
  EncodeRune (rune3 (bv c) (bv c1) (bv c2)) = String c (String c1 (str1 c2)).
Proof.
  intros H. destruct (rune3_range _ _ _ H) as [Hr Hs].
  rewrite EncodeRune_3 by assumption.
  unfold ok3, rune3 in *.
  f_equal; [|f_equal; [|f_equal]]; apply chr_eq; arith.
Qed.

Lemma Enc4 (c c1 c2 c3 : ascii) :
  ok4 (bv c) (bv c1) (bv c2) (bv c3) ->
  EncodeRune (rune4 (bv c) (bv c1) (bv c2) (bv c3)) =
  String c (String c1 (String c2 (str1 c3))).
Proof.
  unfold ok4, rune4; intros H.
  rewrite EncodeRune_4 by lia.
  f_equal; [|f_equal; [|f_equal; [|f_equal]]]; apply chr_eq; arith.
Qed.

(** ** Scanning and unquoting what [appendString] writes *)

Lemma ascii_eqb_bv (c d : ascii) : Ascii.eqb c d = (bv c =? bv d).
Proof.
  destruct (Ascii.eqb_spec c d) as [->|Hne].
  - symmetry; apply Z.eqb_refl.
  - symmetry; apply Z.eqb_neq; intros H; apply Hne.
    rewrite <- (chr_bv c), <- (chr_bv d), H; reflexivity.
Qed.

Lemma scan_copy (c : ascii) (X body after : string) :
  32 <= bv c -> bv c <> 34 -> bv c <> 92 ->
  scan_string X = Some (body, after) ->
  scan_string (String c X) = Some (String c body, after).
Proof.
  intros H1 H2 H3 HX. cbn [scan_string].
  rewrite !ascii_eqb_bv. change (bv dquote) with 34. change (bv bslash) with 92.
  zbool. rewrite HX; reflexivity.
Qed.

Lemma unquote_copy1 (c : ascii) (X u : string) :
  32 <= bv c < 128 -> bv c <> 34 -> bv c <> 92 ->
  unquote_loop X = Some u ->
  unquote_loop (String c X) = Some (String c u).
Proof.
  intros H1 H2 H3 HX. cbn [unquote_loop].
  rewrite (ascii_eqb_bv c bslash), (ascii_eqb_bv c dquote).
  change (bv dquote) with 34. change (bv bslash) with 92.
  zbool. rewrite HX; reflexivity.
Qed.

Lemma unquote_copyn (c : ascii) (X Y u : string) (r : Z) (k : nat) :
  128 <= bv c ->
  DecodeRune (String c X) = (r, k) ->
  match k, X with
  | 2%nat, String _ r2 => r2 = Y
  | 3%nat, String _ (String _ r3) => r3 = Y
  | 4%nat, String _ (String _ (String _ r4)) => r4 = Y
  | _, _ => False
  end ->
  unquote_loop Y = Some u ->
  unquote_loop (String c X) = Some (EncodeRune r ++ u)%string.
Proof.
  intros Hc Hd Hk HY.
  assert (Hb : Ascii.eqb c bslash = false)
    by (rewrite ascii_eqb_bv; change (bv bslash) with 92; apply Z.eqb_neq; lia).
  assert (Hq : Ascii.eqb c dquote = false)
    by (rewrite ascii_eqb_bv; change (bv dquote) with 34; apply Z.eqb_neq; lia).
  cbn [unquote_loop]. rewrite Hb, Hq. zbool. rewrite Hd. cbn [fst snd].
  destruct k as [|[|[|[|[|k]]]]]; try contradiction;
    destruct X as [|c1 [|c2 [|c3 X]]]; try contradiction; subst; rewrite HY;
    reflexivity.
Qed.

(** The escapes of the bytes below 0x80 that [htmlSafeSet] leaves out. *)
Lemma escape_ok (c : ascii) :
  bv c < 128 -> htmlSafe (bv c) = false ->
  (forall Y body after, scan_string Y = Some (body, after) ->
     scan_string (escape_ascii (bv c) ++ Y)%string =
       Some ((escape_ascii (bv c) ++ body)%string, after)) /\
  (forall Y u, unquote_loop Y = Some u ->
     unquote_loop (escape_ascii (bv c) ++ Y)%string = Some (String c u)).
Proof.
  intros H Hs.
  destruct c as [[] [] [] [] [] [] [] []];
    vm_compute in H, Hs; try discriminate;
    (split; [intros Y body after HY | intros Y u HY]);
    simpl; rewrite HY; reflexivity.
Qed.

Lemma sapp_assoc (a b d : string) : ((a ++ b) ++ d = a ++ (b ++ d))%string.
Proof. induction a as [|x a IH]; simpl; [reflexivity | rewrite IH; reflexivity]. Qed.

Lemma bv_dquote : bv dquote = 34.
Proof. reflexivity. Qed.

Lemma htmlSafe_true (b : Z) : htmlSafe b = true -> 32 <= b /\ b <> 34 /\ b <> 92.
Proof.
  unfold htmlSafe; intros H.
  repeat rewrite andb_true_iff in H. rewrite !negb_true_iff in H.
  destruct H as [[[[[[H1 H2] H3] H4] H5] H6] H7].
  apply Z.leb_le in H1. apply Z.eqb_neq in H3. apply Z.eqb_neq in H4. lia.
Qed.

Lemma unquote_step1 (c : ascii) (X : string) :
  32 <= bv c < 128 -> bv c <> 34 -> bv c <> 92 ->
  unquote_loop (String c X) =
  match unquote_loop X with Some u => Some (String c u) | None => None end.
Proof.
  intros H1 H2 H3. cbn [unquote_loop].
  rewrite (ascii_eqb_bv c bslash), (ascii_eqb_bv c dquote).
  change (bv dquote) with 34. change (bv bslash) with 92.
  zbool. reflexivity.
Qed.

Lemma unquote_stepn (c : ascii) (X Y : string) (r : Z) (k : nat) :
  128 <= bv c ->
  DecodeRune (String c X) = (r, k) ->
  match k, X with
  | 2%nat, String _ r2 => r2 = Y
  | 3%nat, String _ (String _ r3) => r3 = Y
  | 4%nat, String _ (String _ (String _ r4)) => r4 = Y
  | _, _ => False
  end ->
  unquote_loop (String c X) =
  match unquote_loop Y with Some u => Some (EncodeRune r ++ u)%string | None => None end.
Proof.
  intros Hc Hd Hk.
  assert (Hb : Ascii.eqb c bslash = false)
    by (rewrite ascii_eqb_bv; change (bv bslash) with 92; apply Z.eqb_neq; lia).
  assert (Hq : Ascii.eqb c dquote = false)
    by (rewrite ascii_eqb_bv; change (bv dquote) with 34; apply Z.eqb_neq; lia).
  cbn [unquote_loop]. rewrite Hb, Hq. zbool. rewrite Hd. cbn [fst snd].
  destruct k as [|[|[|[|[|k]]]]]; try contradiction;
    destruct X as [|c1 [|c2 [|c3 X]]]; try contradiction; subst; reflexivity.
Qed.

Lemma sapp_nil_r (a : string) : (a ++ EmptyString)%string = a.
Proof. induction a as [|x a IH]; simpl; [reflexivity | rewrite IH; reflexivity]. Qed.

Lemma option_app_assoc (p p' : string) (o : option string) :
  match match o with Some u => Some (p' ++ u)%string | None => None end with
  | Some u => Some (p ++ u)%string | None => None end =
  match o with Some u => Some ((p ++ p') ++ u)%string | None => None end.
Proof. destruct o; [rewrite sapp_assoc|]; reflexivity. Qed.

(** The plain prefix is what the loop would copy unchanged. *)
Lemma plain_prefix_loop (x p q : string) :
  plain_prefix x = (p, q) ->
  x = (p ++ q)%string /\
  unquote_loop x =
  match unquote_loop q with Some u => Some (p ++ u)%string | None => None end.
Proof.
  remember (String.length x) as n eqn:Hn.
  revert x p q Hn. induction n as [n IH] using (well_founded_induction lt_wf).
  intros [|c rest] p q Hn Hp.
  { cbn in Hp. inversion Hp; subst. split; reflexivity. }
  assert (Htriv : unquote_loop (String c rest) =
    match unquote_loop (String c rest) with
    | Some u => Some ("" ++ u)%string | None => None end)
    by (destruct (unquote_loop (String c rest)); reflexivity).
  cbn [plain_prefix] in Hp.
  destruct (Ascii.eqb c bslash || Ascii.eqb c dquote || (bv c <? 32)) eqn:Hs.
  { inversion Hp; subst. split; [reflexivity | exact Htriv]. }
  rewrite !orb_false_iff, !ascii_eqb_bv, !Z.eqb_neq, Z.ltb_ge in Hs.
  change (bv dquote) with 34 in Hs. change (bv bslash) with 92 in Hs.
  pose proof (bv_bound c) as Hc.
  destruct (Z.ltb_spec (bv c) 128) as [Hlo|Hhi].
  - destruct (plain_prefix rest) as [p' q'] eqn:Hr. inversion Hp; subst p q'.
    destruct (IH (String.length rest)) with (x := rest) (p := p') (q := q)
      as [Ex Eu]; [simpl in Hn; lia | reflexivity | exact Hr |].
    split; [rewrite Ex; reflexivity|].
    rewrite unquote_step1 by lia. rewrite Eu.
    apply (option_app_assoc (String c EmptyString) p').
  - destruct (DecodeRune_cases c rest Hhi)
      as [Hd|[[c1 [t [-> Hok]]]|[[c1 [c2 [t [-> Hok]]]]|[c1 [c2 [c3 [t [-> Hok]]]]]]]].
    + rewrite Hd in Hp. destruct rest as [|? [|? [|? ?]]];
        inversion Hp; subst; split; first [reflexivity | exact Htriv].
    + rewrite Dec2 in Hp by exact Hok.
      destruct (plain_prefix t) as [p' q'] eqn:Hr. inversion Hp; subst p q'.
      destruct (IH (String.length t)) with (x := t) (p := p') (q := q)
        as [Ex Eu]; [simpl in Hn; lia | reflexivity | exact Hr |].
      split; [rewrite Ex; reflexivity|].
      rewrite (unquote_stepn c (String c1 t) t _ 2) by
        first [lia | apply Dec2; exact Hok | reflexivity].
      rewrite Eu, Enc2 by exact Hok.
      apply (option_app_assoc (String c (String c1 EmptyString)) p').
    + rewrite Dec3 in Hp by exact Hok.
      destruct (plain_prefix t) as [p' q'] eqn:Hr. inversion Hp; subst p q'.
      destruct (IH (String.length t)) with (x := t) (p := p') (q := q)
        as [Ex Eu]; [simpl in Hn; lia | reflexivity | exact Hr |].
      split; [rewrite Ex; reflexivity|].
      rewrite (unquote_stepn c (String c1 (String c2 t)) t _ 3) by
        first [lia | apply Dec3; exact Hok | reflexivity].
      rewrite Eu, Enc3 by exact Hok.
      apply (option_app_assoc (String c (String c1 (String c2 EmptyString))) p').
    + rewrite Dec4 in Hp by exact Hok.
      destruct (plain_prefix t) as [p' q'] eqn:Hr. inversion Hp; subst p q'.
      destruct (IH (String.length t)) with (x := t) (p := p') (q := q)
        as [Ex Eu]; [simpl in Hn; lia | reflexivity | exact Hr |].
      split; [rewrite Ex; reflexivity|].
      rewrite (unquote_stepn c (String c1 (String c2 (String c3 t))) t _ 4) by
        first [lia | apply Dec4; exact Hok | reflexivity].
      rewrite Eu, Enc4 by exact Hok.
      apply (option_app_assoc
               (String c (String c1 (String c2 (String c3 EmptyString)))) p').
Qed.

(** [unquoteBytes] and the loop agree. *)
Lemma unquote_loop_agree (x : string) : unquote x = unquote_loop x.
Proof.
  unfold unquote.
  destruct (plain_prefix x) as [p q] eqn:Hp.
  destruct (plain_prefix_loop x p q Hp) as [Ex Eu].
  rewrite Eu. destruct q as [|c q'].
  - cbn [unquote_loop]. rewrite Ex, sapp_nil_r; reflexivity.
  - reflexivity.
Qed.

(** The bytes [appendString] writes for valid UTF-8 scan as one string
    literal body and unquote back to the input. *)
Lemma appendString_roundtrip (s : string) :
  ValidString s = true ->
  (forall t, scan_string (appendString s ++ String dquote t)%string =
             Some (appendString s, t)) /\
  unquote_loop (appendString s) = Some s.
Proof.
  remember (String.length s) as n eqn:Hn.
  revert s Hn. induction n as [n IH] using (well_founded_induction lt_wf).
  intros [|c rest] Hn HV.
  { split; [intros t; reflexivity | reflexivity]. }
  pose proof (bv_bound c) as Hc.
  cbn [ValidString] in HV. cbn [appendString].
  destruct (Z.ltb_spec (bv c) 128) as [Hlo|Hhi].
  - (* one byte below 0x80 *)
    destruct (IH (String.length rest)) with (s := rest) as [IHs IHu];
      [simpl in Hn; lia | reflexivity | exact HV |].
    destruct (htmlSafe (bv c)) eqn:Hs.
    + apply htmlSafe_true in Hs.
      split; [intros t; apply scan_copy; try lia; apply IHs
             | apply unquote_copy1; try lia; apply IHu].
    + destruct (escape_ok c Hlo Hs) as [Es Eu].
      split; [intros t; rewrite sapp_assoc; apply Es, IHs | apply Eu, IHu].
  - (* a multi-byte sequence *)
    rewrite DecodeRune_prefix4.
    destruct (DecodeRune_cases c rest Hhi)
      as [Hd|[[c1 [t [-> Hok]]]|[[c1 [c2 [t [-> Hok]]]]|[c1 [c2 [c3 [t [-> Hok]]]]]]]].
    + rewrite Hd in HV. destruct rest as [|? [|? [|? ?]]]; discriminate.
    + rewrite Dec2 in HV |- * by exact Hok.
      destruct (IH (String.length t)) with (s := t) as [IHs IHu];
        [simpl in Hn; lia | reflexivity | exact HV |].
      assert (Hr : rune2 (bv c) (bv c1) <= 2047) by (unfold ok2, rune2 in *; lia).
      cbn [Nat.eqb]. rewrite andb_false_r.
      replace ((rune2 (bv c) (bv c1) =? 8232) || (rune2 (bv c) (bv c1) =? 8233))
        with false by (symmetry; apply orb_false_iff; split; apply Z.eqb_neq; lia).
      pose proof (bv_bound c1). unfold ok2 in Hok.
      split.
      * intros t'. cbn [append].
        apply scan_copy; try lia. apply scan_copy; try lia. apply IHs.
      * erewrite unquote_copyn; [| lia | apply Dec2; exact Hok | reflexivity | exact IHu].
        rewrite Enc2 by exact Hok. reflexivity.
    + rewrite Dec3 in HV |- * by exact Hok.
      destruct (IH (String.length t)) with (s := t) as [IHs IHu];
        [simpl in Hn; lia | reflexivity | exact HV |].
      pose proof (bv_bound c1). pose proof (bv_bound c2).
      replace ((rune3 (bv c) (bv c1) (bv c2) =? RuneError) && (3 =? 1)%nat)
        with false by (rewrite andb_false_r; reflexivity).
      destruct ((rune3 (bv c) (bv c1) (bv c2) =? 8232) ||
                (rune3 (bv c) (bv c1) (bv c2) =? 8233)) eqn:E.
      * (* U+2028 and U+2029 are written as escapes *)
        apply orb_true_iff in E; rewrite !Z.eqb_eq in E.
        assert (Ec : c = chr 226) by (symmetry; apply chr_eq; unfold ok3, rune3 in *; lia).
        assert (Ec1 : c1 = chr 128) by (symmetry; apply chr_eq; unfold ok3, rune3 in *; lia).
        destruct E as [E|E]; rewrite E;
          [assert (Ec2 : c2 = chr 168) | assert (Ec2 : c2 = chr 169)];
          try (symmetry; apply chr_eq; unfold ok3, rune3 in *; lia);
          subst c c1 c2;
          (split; [intros t'; simpl; rewrite IHs; reflexivity
                  | simpl; rewrite IHu; reflexivity]).
      * apply orb_false_iff in E; rewrite !Z.eqb_neq in E.
        unfold ok3 in Hok.
        split.
        -- intros t'. cbn [append].
           apply scan_copy; try lia. apply scan_copy; try lia.
           apply scan_copy; try lia. apply IHs.
        -- erewrite unquote_copyn; [| lia | apply Dec3; exact Hok | reflexivity | exact IHu].
           rewrite Enc3 by exact Hok. reflexivity.
    + rewrite Dec4 in HV |- * by exact Hok.
      destruct (IH (String.length t)) with (s := t) as [IHs IHu];
        [simpl in Hn; lia | reflexivity | exact HV |].
      pose proof (bv_bound c1). pose proof (bv_bound c2). pose proof (bv_bound c3).
      assert (Hr : 65536 <= rune4 (bv c) (bv c1) (bv c2) (bv c3))
        by (unfold ok4, rune4 in *; lia).
      cbn [Nat.eqb]. rewrite andb_false_r.
      replace ((rune4 (bv c) (bv c1) (bv c2) (bv c3) =? 8232) ||
               (rune4 (bv c) (bv c1) (bv c2) (bv c3) =? 8233))
        with false by (symmetry; apply orb_false_iff; split; apply Z.eqb_neq; lia).
      unfold ok4 in Hok.
      split.
      * intros t'. cbn [append].
        apply scan_copy; try lia. apply scan_copy; try lia.
        apply scan_copy; try lia. apply scan_copy; try lia. apply IHs.
      * erewrite unquote_copyn; [| lia | apply Dec4; exact Hok | reflexivity | exact IHu].
        rewrite Enc4 by exact Hok. reflexivity.
Qed.

(** [json.Unmarshal] reads back what [json.Marshal] wrote, for valid
    UTF-8. *)
Lemma Unmarshal_Marshal (s v : string) :
  ValidString s = true -> Unmarshal_string (Marshal_string s) v = inl s.
Proof.
  intros HV. destruct (appendString_roundtrip s HV) as [Hs Hu].
  unfold Unmarshal_string, Marshal_string. cbn [skip_space].
  change (is_space dquote) with false. change (Ascii.eqb dquote dquote) with true.
  cbv iota. unfold str1. rewrite Hs. cbn [all_space].
  rewrite unquote_loop_agree, Hu. reflexivity.
Qed.

End UTF8Facts.

(** * The claims *)

(** ** C1: Prefix *)

(** C1 (amended): for a non-negative rank (default 1), [Prefix] returns the
    whole single segment when the rank is 1 and there is exactly one
    segment, the empty string when [len - rank < 0], and otherwise
    [segments[0:len-rank]] joined with ':'; the table for "a:b:c:d:e" and
    [parse("a").Prefix(1) == "a"] hold. *)
Theorem Prefix_rank (x : Compact) (r : Z)
  (Hr : 0 <= r <= int_max) (Hx : go_len (Seq x) <= int_max) :
  Prefix x [r] =
  Some (if (r =? 1) && (go_len (Seq x) =? 1) then Join (Seq x) ":"
        else if go_len (Seq x) - r <? 0 then EmptyString
        else Join (firstn (Z.to_nat (go_len (Seq x) - r)) (Seq x)) ":") /\
  Prefix x [] = Prefix x [1] /\
  map (Prefix (NewCompact "a:b:c:d:e")) [[]; [1]; [2]; [3]; [4]; [5]]
  = map Some ["a:b:c:d"; "a:b:c:d"; "a:b:c"; "a:b"; "a"; ""]%string /\
  Prefix (NewCompact "a") [1] = Some "a"%string.
Proof.
  split; [apply Prefix_nonneg; assumption|].
  split; [apply Prefix_default|].
  split; reflexivity.
Qed.

Lemma Prefix_rank_witness :
  Prefix (NewCompact "a:b:c") [2] = Some "a"%string.
Proof.
  destruct (Prefix_rank (NewCompact "a:b:c") 2) as [H _].
  - unfold int_max; lia.
  - unfold int_max; vm_compute; discriminate.
  - rewrite H; reflexivity.
Defined.

(** C1, counterexample: at rank -1 the slice [segments[0:len+1]] is out of
    range and [parse("a:b").Prefix(-1)] panics instead of returning. *)
Lemma Prefix_negative_rank_panics :
  Prefix (NewCompact "a:b") [-1] = None.
Proof. reflexivity. Qed.

(** ** C2: Suffix *)

(** C2 (amended): for a non-negative rank (default 1), [Suffix] returns the
    empty string when there is exactly one segment, and otherwise
    [segments[max(0, len-rank):]] joined with ':'; the table for
    "a:b:c:d:e" holds. *)
Theorem Suffix_rank (x : Compact) (r : Z)
  (Hr : 0 <= r <= int_max) (Hx : go_len (Seq x) <= int_max) :
  Suffix x [r] =
  Some (if go_len (Seq x) =? 1 then EmptyString
        else Join (skipn (Z.to_nat (Z.max 0 (go_len (Seq x) - r))) (Seq x)) ":") /\
  Suffix x [] = Suffix x [1] /\
  map (Suffix (NewCompact "a:b:c:d:e")) [[]; [1]; [2]; [3]; [4]; [5]]
  = map Some ["e"; "e"; "d:e"; "c:d:e"; "b:c:d:e"; "a:b:c:d:e"]%string.
Proof.
  split; [apply Suffix_nonneg; assumption|].
  split; [apply Suffix_default | reflexivity].
Qed.

Lemma Suffix_rank_witness :
  Suffix (NewCompact "a:b:c") [2] = Some "b:c"%string.
Proof.
  destruct (Suffix_rank (NewCompact "a:b:c") 2) as [H _].
  - unfold int_max; lia.
  - unfold int_max; vm_compute; discriminate.
  - rewrite H; reflexivity.
Defined.

(** C2, counterexample: at rank -1, [n = len+1] is past the end and the
    slice [segments[n:len]] panics. *)
Lemma Suffix_negative_rank_panics :
  Suffix (NewCompact "a:b") [-1] = None.
Proof. reflexivity. Qed.

(** ** C3 and C6: Parent and Heir build fresh sequences *)

Lemma Heir_Seq (x : Compact) (seg : string) :
  Seq (Heir x seg) =
  (if list_eq_dec string_dec (Seq x) [EmptyString] then [seg] else Seq x ++ [seg]).
Proof.
  unfold Heir.
  destruct (list_eq_dec string_dec (Seq x) [EmptyString]) as [E|E].
  - rewrite E. reflexivity.
  - destruct (_ && _) eqn:Hc; [|reflexivity].
    exfalso. apply andb_true_iff in Hc as [H1 H2]. apply Z.eqb_eq in H1.
    destruct (Seq x) as [|s0 [|s1 t]]; [discriminate H2| |].
    + apply String.eqb_eq in H2; subst; congruence.
    + unfold go_len in H1; simpl in H1; lia.
Qed.

Section Fresh.

Variable growcap : nat -> nat -> nat.
Hypothesis growcap_ge : forall c n, (n <= growcap c n)%nat.

(** C3 (amended): for a non-negative rank (default 1) and
    [n = len(segments) - rank], [Parent] returns the root [[""]] when
    [n <= 0] and otherwise a copy of [segments[0:n]] in a newly allocated
    array, leaving every existing array as it was; [Parent()] of the root
    is the root. *)
Theorem Parent_rank (x : Compact) (r : Z) (st : GoHeap.store) (h : GoHeap.slice)
  (Hr : 0 <= r <= int_max) (Hx : go_len (Seq x) <= int_max)
  (Hwf : GoHeap.wf_slice st h) (Hread : GoHeap.read st h = Seq x) :
  let p := if go_len (Seq x) - r <=? 0 then root
           else {| Seq := firstn (Z.to_nat (go_len (Seq x) - r)) (Seq x) |} in
  Parent x [r] = Some p /\ Parent x [] = Parent x [1] /\
  Parent root [] = Some root /\
  exists st' y, GoHeap.Parent_h growcap st h [r] = Some (st', y) /\
    GoHeap.read st' y = Seq p /\ GoHeap.preserves st st' /\
    (length st <= GoHeap.arr y)%nat.
Proof.
  intros p.
  split; [apply Parent_nonneg; assumption|].
  split; [apply Parent_default|].
  split; [reflexivity|].
  pose proof (HeapFacts.read_length st h Hwf) as Hl.
  rewrite Hread in Hl. unfold go_len in *. rewrite Hl in *.
  destruct (HeapFacts.Parent_h_spec growcap growcap_ge st h r Hwf Hr Hx)
    as (st' & y & Hp & Hrd & Hpres & Hfresh).
  exists st', y. split; [assumption|]. split; [|split; [assumption|apply Hfresh]].
  rewrite Hrd, Hread. subst p. rewrite Hl.
  destruct (Z.of_nat (GoHeap.len h) - r <=? 0); reflexivity.
Qed.

(** C6: [Heir(s)] is [[s]] when the receiver is exactly the root [[""]] and
    otherwise the receiver's segments with [s] appended; the result lives in
    a newly allocated array, and every existing array, the receiver's
    among them, is left as it was. *)
Theorem Heir_fresh (x : Compact) (seg : string) (st : GoHeap.store)
  (h : GoHeap.slice)
  (Hwf : GoHeap.wf_slice st h) (Hread : GoHeap.read st h = Seq x) :
  Seq (Heir x seg) =
    (if list_eq_dec string_dec (Seq x) [EmptyString] then [seg]
     else Seq x ++ [seg]) /\
  let r := GoHeap.Heir_h growcap st h seg in
  GoHeap.read (fst r) (snd r) = Seq (Heir x seg) /\
  GoHeap.preserves st (fst r) /\
  GoHeap.read (fst r) h = Seq x /\
  (length st <= GoHeap.arr (snd r))%nat.
Proof.
  split; [apply Heir_Seq|].
  destruct (HeapFacts.Heir_h_spec growcap growcap_ge st h seg Hwf)
    as (Hrd & Hpres & Hfresh & _).
  cbv zeta. split; [|split; [assumption|split; [|assumption]]].
  - rewrite Hrd, Heir_Seq, Hread. reflexivity.
  - rewrite (HeapFacts.read_preserved st); assumption.
Qed.

End Fresh.

Definition growcap_exact (c n : nat) : nat := n.

Lemma growcap_exact_ge (c n : nat) : (n <= growcap_exact c n)%nat.
Proof. unfold growcap_exact; lia. Qed.

Lemma Parent_rank_witness :
  Parent (NewCompact "a:b:c") [1] = Some (NewCompact "a:b").
Proof.
  destruct (Parent_rank growcap_exact growcap_exact_ge (NewCompact "a:b:c") 1
              (fst (GoHeap.NewCompact_h [] "a:b:c"))
              (snd (GoHeap.NewCompact_h [] "a:b:c"))) as [H _].
  - unfold int_max; lia.
  - unfold int_max; vm_compute; discriminate.
  - unfold GoHeap.wf_slice; simpl; lia.
  - reflexivity.
  - rewrite H; reflexivity.
Defined.

(** C3, counterexample: at rank -1, [n = len+1] exceeds the capacity of
    the array [strings.Split] returned, and [Parent(-1)] panics. *)
Lemma Parent_negative_rank_panics :
  Parent (NewCompact "a:b") [-1] = None /\
  GoHeap.Parent_h growcap_exact (fst (GoHeap.NewCompact_h [] "a:b"))
    (snd (GoHeap.NewCompact_h [] "a:b")) [-1] = None.
Proof. split; reflexivity. Qed.

Lemma Heir_fresh_witness :
  Seq (Heir (NewCompact "") "a") = ["a"%string] /\
  Seq (Heir (NewCompact "a") "b") = ["a"; "b"]%string.
Proof.
  split.
  - destruct (Heir_fresh growcap_exact growcap_exact_ge (NewCompact "") "a"
                (fst (GoHeap.NewCompact_h [] "")) (snd (GoHeap.NewCompact_h [] "")))
      as [H _].
    + unfold GoHeap.wf_slice; simpl; lia.
    + reflexivity.
    + rewrite H; reflexivity.
  - destruct (Heir_fresh growcap_exact growcap_exact_ge (NewCompact "a") "b"
                (fst (GoHeap.NewCompact_h [] "a")) (snd (GoHeap.NewCompact_h [] "a")))
      as [H _].
    + unfold GoHeap.wf_slice; simpl; lia.
    + reflexivity.
    + rewrite H; reflexivity.
Defined.

(** ** C4: parse and toString *)

(** C4: [toString(parse(s)) == s] for every string [s] (so for "", "a",
    "a:b", "a:b:c:d:e"), and [parse("")] is the one-segment sequence
    [[""]], never an empty sequence. *)
Theorem String_NewCompact (s : string) :
  to_String (NewCompact s) = s /\
  map (fun t => to_String (NewCompact t)) [""; "a"; "a:b"; "a:b:c:d:e"]%string
  = [""; "a"; "a:b"; "a:b:c:d:e"]%string /\
  Seq (NewCompact "") = [EmptyString] /\
  Seq (NewCompact s) <> [].
Proof.
  split; [apply Join_Split|].
  split; [reflexivity|].
  split; [reflexivity|].
  destruct (Split_nonempty s) as [h [t Ht]].
  unfold NewCompact; simpl; rewrite Ht; discriminate.
Qed.

(** ** C5: Parent undoes Heir *)

(** C5: for an identifier [x] with at least one segment that is not the
    root [[""]], and any segment [s], [x.Heir(s).Parent()] is [Eq] to [x]. *)
Theorem Heir_Parent_Eq (x : Compact) (s : string)
  (Hne : Seq x <> []) (Hroot : Seq x <> [EmptyString])
  (Hlen : go_len (Seq x) < int_max) :
  exists p, Parent (Heir x s) [] = Some p /\ Eq p x = true.
Proof.
  assert (Hh : Heir x s = {| Seq := Seq x ++ [s] |}).
  { unfold Heir.
    destruct (_ && _) eqn:E; [|reflexivity].
    apply andb_true_iff in E as [E1 E2]. apply Z.eqb_eq in E1.
    destruct (Seq x) as [|s0 [|s1 t]]; [congruence| |].
    - apply String.eqb_eq in E2; subst; congruence.
    - unfold go_len in E1; simpl in E1; lia. }
  rewrite Hh, Parent_default, Parent_nonneg.
  - simpl Seq. unfold go_len in *. rewrite length_app. simpl length.
    replace (Z.of_nat (length (Seq x) + 1) - 1 <=? 0) with false.
    + replace (Z.to_nat (Z.of_nat (length (Seq x) + 1) - 1)) with (length (Seq x)) by lia.
      rewrite firstn_app, firstn_all, Nat.sub_diag. simpl.
      rewrite app_nil_r.
      eexists; split; [reflexivity|].
      destruct x; apply Eq_refl.
    + symmetry; apply Z.leb_gt.
      assert (length (Seq x) <> 0%nat) by (destruct (Seq x); simpl; congruence).
      lia.
  - unfold int_max; lia.
  - unfold go_len in *; simpl; rewrite length_app; simpl; lia.
Qed.

Lemma Heir_Parent_Eq_witness :
  exists p, Parent (Heir (NewCompact "a:b") "c") [] = Some p /\
            Eq p (NewCompact "a:b") = true.
Proof.
  apply Heir_Parent_Eq.
  - discriminate.
  - discriminate.
  - unfold int_max; vm_compute; reflexivity.
Defined.

(** ** The heap model keeps segments free of ':' *)

Section HeapColon.

Variable growcap : nat -> nat -> nat.

Definition store_colon_free (st : GoHeap.store) : Prop :=
  Forall (Forall colon_free) st.

Lemma Forall_skipn' {A} (P : A -> Prop) (n : nat) (l : list A) :
  Forall P l -> Forall P (skipn n l).
Proof.
  revert l; induction n as [|n IH]; intros [|a l] H; simpl; try assumption.
  apply IH. inversion H; assumption.
Qed.

Lemma backing_colon_free (st : GoHeap.store) (a : nat) :
  store_colon_free st -> Forall colon_free (GoHeap.backing st a).
Proof.
  intros H. unfold GoHeap.backing.
  destruct (Nat.lt_ge_cases a (length st)) as [Ha|Ha].
  - unfold store_colon_free in H; rewrite Forall_forall in H. apply H, nth_In, Ha.
  - rewrite nth_overflow by exact Ha. constructor.
Qed.

Lemma read_colon_free (st : GoHeap.store) (v : GoHeap.slice) :
  store_colon_free st -> Forall colon_free (GoHeap.read st v).
Proof.
  intros H. unfold GoHeap.read.
  apply Forall_firstn', Forall_skipn', backing_colon_free, H.
Qed.

Lemma alloc_colon_free (st : GoHeap.store) (l : list string) :
  store_colon_free st -> Forall colon_free l ->
  store_colon_free (fst (GoHeap.alloc st l)).
Proof.
  intros H Hl. unfold GoHeap.alloc, store_colon_free; simpl.
  apply Forall_app; split; [exact H | constructor; [exact Hl | constructor]].
Qed.

Lemma append_colon_free (st : GoHeap.store) (v : GoHeap.slice) (xs : list string) :
  store_colon_free st -> Forall colon_free xs ->
  store_colon_free (fst (GoHeap.append growcap st v xs)).
Proof.
  intros H Hx. unfold GoHeap.append.
  destruct (_ <=? _)%nat; simpl.
  - unfold GoHeap.set_backing, store_colon_free.
    apply Forall_app; split; [apply Forall_firstn', H|].
    apply Forall_app; split; [|apply Forall_skipn', H].
    constructor; [|constructor].
    pose proof (backing_colon_free st (GoHeap.arr v) H) as Hb.
    apply Forall_app; split; [apply Forall_firstn', Hb|].
    apply Forall_app; split; [exact Hx | apply Forall_skipn', Hb].
  - apply alloc_colon_free; [exact H|].
    apply Forall_app; split; [apply read_colon_free, H|].
    apply Forall_app; split; [exact Hx|].
    apply Forall_forall. intros e He. apply repeat_spec in He. subst. reflexivity.
Qed.

Lemma NewCompact_h_colon_free (st : GoHeap.store) (s : string) :
  store_colon_free st -> store_colon_free (fst (GoHeap.NewCompact_h st s)).
Proof.
  intros H. unfold GoHeap.NewCompact_h.
  apply (alloc_colon_free st (Split s colon) H (Split_colon_free s)).
Qed.

Lemma lit1_colon_free (st : GoHeap.store) (x : string) :
  store_colon_free st -> colon_free x -> store_colon_free (fst (GoHeap.lit1 st x)).
Proof.
  intros H Hx. unfold GoHeap.lit1.
  apply (alloc_colon_free st [x] H). constructor; [exact Hx | constructor].
Qed.

Lemma empty_lit_colon_free (st : GoHeap.store) :
  store_colon_free st -> store_colon_free (fst (GoHeap.empty_lit st)).
Proof.
  intros H. unfold GoHeap.empty_lit.
  apply (alloc_colon_free st [] H). constructor.
Qed.

Lemma Parent_h_colon_free (st : GoHeap.store) (x : GoHeap.slice) (rank : list Z)
  (st' : GoHeap.store) (v : GoHeap.slice) :
  store_colon_free st -> GoHeap.Parent_h growcap st x rank = Some (st', v) ->
  store_colon_free st'.
Proof.
  intros H E. unfold GoHeap.Parent_h in E.
  destruct (_ <=? 0).
  - injection E as <- _. apply lit1_colon_free; [exact H | reflexivity].
  - destruct (GoHeap.slice_to_h x _) as [p|]; [|discriminate].
    pose proof (empty_lit_colon_free st H) as H1.
    destruct (GoHeap.empty_lit st) as [st1 e]. simpl in H1.
    pose proof (append_colon_free st1 e (GoHeap.read st1 p) H1
                  (read_colon_free st1 p H1)) as H2.
    injection E as E. rewrite E in H2. exact H2.
Qed.

Lemma Heir_h_colon_free (st : GoHeap.store) (x : GoHeap.slice) (seg : string) :
  store_colon_free st -> colon_free seg ->
  store_colon_free (fst (GoHeap.Heir_h growcap st x seg)).
Proof.
  intros H Hs. unfold GoHeap.Heir_h.
  destruct (_ && _).
  - apply lit1_colon_free; assumption.
  - pose proof (empty_lit_colon_free st H) as H1.
    destruct (GoHeap.empty_lit st) as [st1 e]. simpl in H1.
    pose proof (append_colon_free st1 e (GoHeap.read st x) H1
                  (read_colon_free st x H)) as H2.
    destruct (GoHeap.append growcap st1 e (GoHeap.read st x)) as [st2 c].
    apply append_colon_free; [exact H2 | constructor; [exact Hs | constructor]].
Qed.

Lemma heap_reach_store (st : GoHeap.store) (vs : list GoHeap.slice) :
  heap_reach growcap colon_free st vs -> store_colon_free st.
Proof.
  induction 1 as [|st vs s st' v _ IH E|st vs x rank st' v _ IH _ E
                 |st vs x seg st' v _ IH _ Hs E].
  - constructor.
  - pose proof (NewCompact_h_colon_free st s IH) as H. rewrite E in H. exact H.
  - exact (Parent_h_colon_free st x rank st' v IH E).
  - pose proof (Heir_h_colon_free st x seg IH Hs) as H. rewrite E in H. exact H.
Qed.

End HeapColon.

(** ** C7: no segment holds the delimiter *)

(** C7 (amended): in every heap built from an empty one by [parse]
    calls, [Parent] calls at any rank and [Heir] calls whose segments hold
    no ':', each on a value built before, and whatever the growth rule of
    [append], no segment of any value built holds ':'. *)
Theorem reachable_colon_free (growcap : nat -> nat -> nat)
  (st : GoHeap.store) (vs : list GoHeap.slice) :
  heap_reach growcap colon_free st vs ->
  Forall (fun v => Forall colon_free (GoHeap.read st v)) vs.
Proof.
  intros H. apply heap_reach_store in H.
  apply Forall_forall. intros v _. apply read_colon_free. exact H.
Qed.

(** [parse("a:b:c").Heir("d").Parent(-1)]: [Heir] leaves capacity 6 for
    length 4, so [Parent(-1)] reads one element past the length. *)
Lemma reachable_colon_free_witness :
  exists st v vs,
    heap_reach go_growcap colon_free st (v :: vs) /\
    GoHeap.read st v = ["a"; "b"; "c"; "d"; ""]%string /\
    Forall (fun v => Forall colon_free (GoHeap.read st v)) (v :: vs).
Proof.
  pose proof (hr_new go_growcap colon_free [] [] "a:b:c" _ _ (hr_start _ _) eq_refl)
    as H1.
  pose proof (hr_heir go_growcap colon_free _ _ _ "d" _ _ H1 (or_introl eq_refl)
                eq_refl eq_refl) as H2.
  pose proof (hr_parent go_growcap colon_free _ _ _ [-1] _ _ H2 (or_introl eq_refl)
                eq_refl) as H3.
  eexists _, _, _. split; [exact H3|].
  split; [vm_compute; reflexivity|].
  exact (reachable_colon_free go_growcap _ _ H3).
Defined.

(** C7, counterexample: [Heir] takes its argument as one segment, so
    [parse("a").Heir("b:c")] has the segment "b:c". *)
Lemma Heir_colon_segment :
  exists st v vs,
    heap_reach go_growcap (fun _ => True) st (v :: vs) /\
    GoHeap.read st v = ["a"; "b:c"]%string /\
    ~ Forall colon_free (GoHeap.read st v).
Proof.
  pose proof (hr_new go_growcap (fun _ => True) [] [] "a" _ _ (hr_start _ _) eq_refl)
    as H1.
  pose proof (hr_heir go_growcap (fun _ => True) _ _ _ "b:c" _ _ H1 (or_introl eq_refl)
                I eq_refl) as H2.
  eexists _, _, _. split; [exact H2|].
  split; [vm_compute; reflexivity|].
  vm_compute. intros H. inversion H as [|? ? _ H4]; subst.
  inversion H4 as [|? ? H5 _]. discriminate H5.
Qed.

(** ** C9: no slice out of range at a non-negative rank *)

(** C9: for a sequence with at least one segment and a non-negative rank
    (given or the default), [Prefix], [Suffix] and [Parent] evaluate every
    slice within [0..len(segments)]: none of them panics. *)
Theorem rank_slices_in_bounds (x : Compact) (r : Z)
  (Hne : Seq x <> []) (Hr : 0 <= r <= int_max)
  (Hx : go_len (Seq x) <= int_max) :
  Prefix x [r] <> None /\ Suffix x [r] <> None /\ Parent x [r] <> None /\
  Prefix x [] <> None /\ Suffix x [] <> None /\ Parent x [] <> None.
Proof.
  assert (H1 : 0 <= 1 <= int_max) by (unfold int_max; lia).
  rewrite Prefix_default, Suffix_default, Parent_default.
  rewrite !Prefix_nonneg, !Suffix_nonneg, !Parent_nonneg by assumption.
  repeat split; discriminate.
Qed.

Lemma rank_slices_in_bounds_witness :
  Prefix (NewCompact "a:b") [3] <> None /\ Suffix (NewCompact "a:b") [3] <> None /\
  Parent (NewCompact "a:b") [3] <> None /\ Prefix (NewCompact "a:b") [] <> None /\
  Suffix (NewCompact "a:b") [] <> None /\ Parent (NewCompact "a:b") [] <> None.
Proof.
  apply rank_slices_in_bounds.
  - discriminate.
  - unfold int_max; lia.
  - unfold int_max; vm_compute; discriminate.
Defined.

(** ** C8: the JSON encoding *)

(** C8 (amended): for a string [s] that is valid UTF-8, the identifier
    [New(s)] serializes to the JSON string [json.Marshal] writes for its
    colon-joined form [s], and [UnmarshalJSON] of that output, on any
    receiver, returns no error and sets the receiver to [New(s)] again.  The
    identifier built from the empty string, and one with no segment at all,
    serialize to the two bytes [""]. *)
Theorem MarshalJSON_roundtrip (s : string) (iri : Compact)
  (Hv : GoJSON.ValidString s = true) :
  MarshalJSON (NewCompact s) = GoJSON.Marshal_string s /\
  UnmarshalJSON (MarshalJSON (NewCompact s)) iri = (NewCompact s, None) /\
  MarshalJSON (NewCompact EmptyString) =
    String GoJSON.dquote (String GoJSON.dquote EmptyString) /\
  MarshalJSON {| Seq := [] |} =
    String GoJSON.dquote (String GoJSON.dquote EmptyString).
Proof.
  assert (Hm : MarshalJSON (NewCompact s) = GoJSON.Marshal_string s).
  { unfold MarshalJSON, NewCompact. cbn [Seq].
    destruct (Split_nonempty s) as [h [t Ht]].
    rewrite Ht. unfold go_len. cbn [length]. rewrite <- Ht.
    replace (Z.of_nat (S (length t)) =? 0) with false by (symmetry; apply Z.eqb_neq; lia).
    unfold to_String. cbn [Seq]. rewrite Join_Split. reflexivity. }
  split; [exact Hm|].
  split; [|split; reflexivity].
  rewrite Hm. unfold UnmarshalJSON.
  rewrite UTF8Facts.Unmarshal_Marshal by exact Hv. reflexivity.
Qed.

Lemma MarshalJSON_roundtrip_witness :
  UnmarshalJSON (MarshalJSON (NewCompact "a:b")) root = (NewCompact "a:b", None).
Proof.
  destruct (MarshalJSON_roundtrip "a:b" root) as [_ [H _]].
  - reflexivity.
  - exact H.
Defined.

(** C8, counterexample: the one-byte string 0xFF is not valid UTF-8;
    [json.Marshal] writes it as the escape of U+FFFD, which decodes to the
    three bytes EF BF BD, so the identifier read back differs. *)
Lemma MarshalJSON_invalid_utf8 :
  MarshalJSON (NewCompact (String (ascii_of_nat 255) EmptyString)) =
    String GoJSON.dquote ("\ufffd" ++ String GoJSON.dquote EmptyString)%string /\
  UnmarshalJSON (MarshalJSON (NewCompact (String (ascii_of_nat 255) EmptyString))) root =
    (NewCompact (String (ascii_of_nat 239) (String (ascii_of_nat 191)
       (String (ascii_of_nat 189) EmptyString))), None) /\
  NewCompact (String (ascii_of_nat 239) (String (ascii_of_nat 191)
    (String (ascii_of_nat 189) EmptyString))) <>
  NewCompact (String (ascii_of_nat 255) EmptyString).
Proof.
  split; [vm_compute; reflexivity|].
  split; [vm_compute; reflexivity|].
  intros H. vm_compute in H. discriminate H.
Qed.

(** ** C10: UnmarshalJSON on a failed decode *)

(** C10 (amended): when [json.Unmarshal] into a string fails,
    [UnmarshalJSON] returns that error and leaves the receiver as it was;
    when it succeeds the receiver becomes [New] of the decoded string.  The
    decoder succeeds on a string literal and also on the literal [null],
    which is not a JSON string: it leaves the string [""] and the receiver
    becomes the root [[""]]. *)
Theorem UnmarshalJSON_atomic (b : string) (iri : Compact)
  (err : GoJSON.json_error)
  (Herr : GoJSON.Unmarshal_string b EmptyString = inr err) :
  UnmarshalJSON b iri = (iri, Some err) /\
  (forall b' u, GoJSON.Unmarshal_string b' EmptyString = inl u ->
                UnmarshalJSON b' iri = (NewCompact u, None)) /\
  UnmarshalJSON GoJSON.null_lit iri = (root, None).
Proof.
  unfold UnmarshalJSON. rewrite Herr. split; [reflexivity|].
  split; [|reflexivity].
  intros b' u Hu. rewrite Hu. reflexivity.
Qed.

Lemma UnmarshalJSON_atomic_witness :
  UnmarshalJSON "42" (NewCompact "a:b") = (NewCompact "a:b", Some GoJSON.DecodeError) /\
  UnmarshalJSON (String GoJSON.dquote (String.append "c:d" (GoJSON.str1 GoJSON.dquote)))
    (NewCompact "a:b") = (NewCompact "c:d", None).
Proof.
  destruct (UnmarshalJSON_atomic "42" (NewCompact "a:b") GoJSON.DecodeError)
    as [H [Hs _]].
  - reflexivity.
  - split; [exact H|]. apply Hs. reflexivity.
Defined.

(** C10, counterexample: [null] does not decode as a JSON string, yet
    [UnmarshalJSON] returns no error and replaces the receiver
    [parse("a:b")] by the root [[""]]. *)
Lemma UnmarshalJSON_null :
  GoJSON.Unmarshal_string GoJSON.null_lit EmptyString = inl EmptyString /\
  UnmarshalJSON GoJSON.null_lit (NewCompact "a:b") = (root, None) /\
  root <> NewCompact "a:b".
Proof.
  split; [reflexivity|]. split; [reflexivity|].
  intros H. vm_compute in H. discriminate H.
Qed.

(** * Further properties of the code *)

(** ** Helpers *)

Lemma skipn_nth_error {A} (l : list A) (i : nat) (w : A) :
  nth_error l i = Some w -> skipn i l = w :: skipn (S i) l.
Proof.
  revert i; induction l as [|a l IH]; intros [|i] H; try discriminate.
  - injection H as ->. reflexivity.
  - simpl. apply IH. exact H.
Qed.

Lemma eq_loop_spec (vs xs : list string) (i : nat) :
  eq_loop i vs xs = true <-> firstn (length vs) (skipn i xs) = vs.
Proof.
  revert i; induction vs as [|v vs IH]; intros i; simpl; [split; reflexivity|].
  destruct (nth_error xs i) as [w|] eqn:Hn.
  - rewrite (skipn_nth_error xs i w Hn). cbn [firstn length].
    destruct (String.eqb_spec w v) as [->|Hne].
    + rewrite (IH (S i)). split; [intros H; rewrite H; reflexivity | intros H; injection H; auto].
    + split; [discriminate | intros H; injection H; intros _ E; contradiction].
  - apply nth_error_None in Hn. rewrite skipn_all2 by exact Hn.
    split; discriminate.
Qed.

Lemma Eq_spec (x y : Compact) : Eq x y = true <-> Seq x = Seq y.
Proof.
  unfold Eq.
  destruct (Z.eqb_spec (go_len (Seq x)) (go_len (Seq y))) as [E|E]; simpl.
  - unfold go_len in E. apply Nat2Z.inj in E.
    rewrite eq_loop_spec, skipn_O, E, firstn_all.
    split; intros H; symmetry; exact H.
  - split; [discriminate | intros H; rewrite H in E; contradiction].
Qed.

Lemma Join_app (l1 l2 : list string) :
  l1 <> [] -> l2 <> [] ->
  Join (l1 ++ l2) ":" = (Join l1 ":" ++ ":" ++ Join l2 ":")%string.
Proof.
  intros H1 H2. induction l1 as [|a l1 IH]; [contradiction|].
  destruct l1 as [|b l1].
  - simpl app. destruct l2 as [|c l2]; [contradiction|]. reflexivity.
  - change ((a :: b :: l1) ++ l2) with (a :: b :: (l1 ++ l2)).
    rewrite !Join_cons_cons. change (b :: l1 ++ l2) with ((b :: l1) ++ l2).
    rewrite IH by discriminate. rewrite !UTF8Facts.sapp_assoc. reflexivity.
Qed.

Lemma Split_length (s : string) :
  length (Split s colon) = S (count_colons s).
Proof.
  induction s as [|c s IH]; [reflexivity|]. simpl.
  destruct (Ascii.eqb c colon); simpl; [rewrite IH; reflexivity|].
  destruct (Split s colon) as [|h t]; simpl in *; lia.
Qed.

Lemma firstn_skipn_nonempty {A} (l : list A) (k : nat) :
  (0 < k < length l)%nat -> firstn k l <> [] /\ skipn k l <> [].
Proof.
  intros H. split.
  - destruct l, k; simpl in *; try lia; discriminate.
  - intros E. apply (f_equal (@length A)) in E. rewrite length_skipn in E.
    simpl in E. lia.
Qed.

(** ** Compact.Eq *)

(** [Eq] holds exactly when the two segment sequences are equal. *)
Theorem Eq_iff_Seq (x y : Compact) : Eq x y = true <-> Seq x = Seq y.
Proof. apply Eq_spec. Qed.

(** ** NewCompact *)

(** [NewCompact(s)] has one segment more than [s] has colons, and no
    segment holds a colon. *)
Theorem NewCompact_segments (s : string) :
  length (Seq (NewCompact s)) = S (count_colons s) /\
  Forall colon_free (Seq (NewCompact s)).
Proof.
  split; [apply Split_length | apply Split_colon_free].
Qed.

(** ** Prefix and Suffix at the same rank *)

(** For [1 <= r < len(segments)], [Prefix(r)], a colon and [Suffix(r)]
    put back together the whole [String()]. *)
Theorem Prefix_Suffix_String (x : Compact) (r : Z)
  (Hr : 1 <= r < go_len (Seq x)) (Hx : go_len (Seq x) <= int_max) :
  exists p q, Prefix x [r] = Some p /\ Suffix x [r] = Some q /\
              (p ++ ":" ++ q)%string = to_String x.
Proof.
  rewrite Prefix_nonneg, Suffix_nonneg by lia.
  replace ((r =? 1) && (go_len (Seq x) =? 1)) with false
    by (symmetry; apply andb_false_iff; right; apply Z.eqb_neq; lia).
  replace (go_len (Seq x) - r <? 0) with false by (symmetry; apply Z.ltb_ge; lia).
  replace (go_len (Seq x) =? 1) with false by (symmetry; apply Z.eqb_neq; lia).
  rewrite Z.max_r by lia.
  do 2 eexists. split; [reflexivity|]. split; [reflexivity|].
  unfold to_String. rewrite <- Join_app.
  - rewrite firstn_skipn. reflexivity.
  - apply firstn_skipn_nonempty. unfold go_len in *; lia.
  - apply firstn_skipn_nonempty. unfold go_len in *; lia.
Qed.

Lemma Prefix_Suffix_String_witness :
  exists p q, Prefix (NewCompact "a:b:c") [2] = Some p /\
    Suffix (NewCompact "a:b:c") [2] = Some q /\
    (p ++ ":" ++ q)%string = to_String (NewCompact "a:b:c").
Proof.
  apply Prefix_Suffix_String.
  - change (go_len (Seq (NewCompact "a:b:c"))) with 3; lia.
  - unfold int_max; vm_compute; discriminate.
Defined.

(** ** Prefix and Parent *)

(** At a non-negative rank, [Prefix(r)] is the [String()] of [Parent(r)],
    except for rank 1 on a single segment: there [Prefix] returns that
    segment and [Parent] the root. *)
Theorem Prefix_String_Parent (x : Compact) (r : Z)
  (Hr : 0 <= r <= int_max) (Hx : go_len (Seq x) <= int_max) :
  (~ (r = 1 /\ go_len (Seq x) = 1) ->
   exists y, Parent x [r] = Some y /\ Prefix x [r] = Some (to_String y)) /\
  (go_len (Seq x) = 1 ->
   Prefix x [1] = Some (to_String x) /\ Parent x [1] = Some root).
Proof.
  assert (H1 : 0 <= 1 <= int_max) by (unfold int_max; lia).
  split.
  - intros Hn. rewrite Parent_nonneg, Prefix_nonneg by assumption.
    replace ((r =? 1) && (go_len (Seq x) =? 1)) with false
      by (symmetry; apply andb_false_iff;
          destruct (Z.eqb_spec r 1); [right; apply Z.eqb_neq; lia | left; reflexivity]).
    eexists; split; [reflexivity|].
    destruct (Z.leb_spec (go_len (Seq x) - r) 0).
    + destruct (Z.ltb_spec (go_len (Seq x) - r) 0); [reflexivity|].
      replace (Z.to_nat (go_len (Seq x) - r)) with 0%nat by lia. reflexivity.
    + replace (go_len (Seq x) - r <? 0) with false by (symmetry; apply Z.ltb_ge; lia).
      reflexivity.
  - intros Hl. rewrite Parent_nonneg, Prefix_nonneg by assumption.
    rewrite Hl. split; reflexivity.
Qed.

Lemma Prefix_String_Parent_witness :
  exists y, Parent (NewCompact "a:b:c") [1] = Some y /\
            Prefix (NewCompact "a:b:c") [1] = Some (to_String y).
Proof.
  apply (Prefix_String_Parent (NewCompact "a:b:c") 1).
  - unfold int_max; lia.
  - unfold int_max; vm_compute; discriminate.
  - vm_compute. intros [_ H]. discriminate H.
Defined.

(** ** Heir, then Prefix and Suffix *)

(** After [Heir(s)] on a receiver with at least one segment that is not
    the root, [Prefix()] is the receiver's [String()] and [Suffix()] is
    [s]; on the root, [Prefix()] is [s] and [Suffix()] is empty. *)
Theorem Heir_Prefix_Suffix (x : Compact) (s : string)
  (Hne : Seq x <> []) (Hroot : Seq x <> [EmptyString])
  (Hx : go_len (Seq x) < int_max) :
  Prefix (Heir x s) [] = Some (to_String x) /\
  Suffix (Heir x s) [] = Some s /\
  Prefix (Heir root s) [] = Some s /\
  Suffix (Heir root s) [] = Some EmptyString.
Proof.
  assert (H1 : 0 <= 1 <= int_max) by (unfold int_max; lia).
  split; [|split; [|split; reflexivity]].
  - rewrite Prefix_default, Prefix_nonneg by
      (first [assumption | rewrite Heir_Seq; destruct (list_eq_dec _ _ _); [contradiction|];
       unfold go_len in *; rewrite length_app; simpl; lia]).
    rewrite Heir_Seq. destruct (list_eq_dec string_dec (Seq x) [EmptyString]);
      [contradiction|].
    assert (Hl : length (Seq x) <> 0%nat) by (destruct (Seq x); [contradiction|discriminate]).
    unfold go_len in *. rewrite length_app; simpl length.
    replace (Z.of_nat (length (Seq x) + 1) =? 1) with false
      by (symmetry; apply Z.eqb_neq; lia).
    rewrite andb_false_r.
    replace (Z.of_nat (length (Seq x) + 1) - 1 <? 0) with false
      by (symmetry; apply Z.ltb_ge; lia).
    replace (Z.to_nat (Z.of_nat (length (Seq x) + 1) - 1)) with (length (Seq x)) by lia.
    rewrite firstn_app, firstn_all, Nat.sub_diag, app_nil_r. reflexivity.
  - rewrite Suffix_default, Suffix_nonneg by
      (first [assumption | rewrite Heir_Seq; destruct (list_eq_dec _ _ _); [contradiction|];
       unfold go_len in *; rewrite length_app; simpl; lia]).
    rewrite Heir_Seq. destruct (list_eq_dec string_dec (Seq x) [EmptyString]);
      [contradiction|].
    assert (Hl : length (Seq x) <> 0%nat) by (destruct (Seq x); [contradiction|discriminate]).
    unfold go_len in *. rewrite length_app; simpl length.
    replace (Z.of_nat (length (Seq x) + 1) =? 1) with false
      by (symmetry; apply Z.eqb_neq; lia).
    replace (Z.to_nat (Z.max 0 (Z.of_nat (length (Seq x) + 1) - 1))) with (length (Seq x))
      by lia.
    rewrite skipn_app, skipn_all, Nat.sub_diag. reflexivity.
Qed.

Lemma Heir_Prefix_Suffix_witness :
  Prefix (Heir (NewCompact "a:b") "c") [] = Some "a:b"%string /\
  Suffix (Heir (NewCompact "a:b") "c") [] = Some "c"%string.
Proof.
  destruct (Heir_Prefix_Suffix (NewCompact "a:b") "c") as [H1 [H2 _]].
  - discriminate.
  - discriminate.
  - unfold int_max; vm_compute; reflexivity.
  - split; assumption.
Defined.

(** ** Parent composes by adding ranks *)

(** For non-negative ranks [a] and [b], [Parent(a).Parent(b)] is
    [Parent(a+b)]. *)
Theorem Parent_Parent (x : Compact) (a b : Z)
  (Ha : 0 <= a) (Hb : 0 <= b) (Hab : a + b <= int_max)
  (Hx : go_len (Seq x) <= int_max) :
  exists y, Parent x [a] = Some y /\ Parent y [b] = Parent x [a + b].
Proof.
  rewrite Parent_nonneg by lia. eexists; split; [reflexivity|].
  rewrite (Parent_nonneg x (a + b)) by lia.
  destruct (Z.leb_spec (go_len (Seq x) - a) 0).
  - rewrite Parent_nonneg by (unfold int_max in *; cbn; lia).
    replace (go_len (Seq x) - (a + b) <=? 0) with true by (symmetry; apply Z.leb_le; lia).
    destruct (Z.leb_spec (go_len (Seq root) - b) 0); [reflexivity|].
    change (go_len (Seq root)) with 1 in *.
    replace (Z.to_nat (1 - b)) with 1%nat by lia. reflexivity.
  - assert (Hy : go_len (firstn (Z.to_nat (go_len (Seq x) - a)) (Seq x)) =
                 go_len (Seq x) - a)
      by (unfold go_len in *; rewrite length_firstn; lia).
    rewrite Parent_nonneg by (cbn [Seq]; lia). cbn [Seq]. rewrite Hy.
    replace (go_len (Seq x) - a - b) with (go_len (Seq x) - (a + b)) by lia.
    destruct (Z.leb_spec (go_len (Seq x) - (a + b)) 0); [reflexivity|].
    rewrite firstn_firstn. f_equal. f_equal. f_equal. lia.
Qed.

Lemma Parent_Parent_witness :
  exists y, Parent (NewCompact "a:b:c:d") [1] = Some y /\
            Parent y [2] = Parent (NewCompact "a:b:c:d") [3].
Proof.
  apply (Parent_Parent (NewCompact "a:b:c:d") 1 2).
  - lia.
  - lia.
  - unfold int_max; lia.
  - unfold int_max; vm_compute; discriminate.
Defined.

(** ** Heir gives a different identifier *)

(** [Heir] is injective in its segment, and [x.Heir(s)] equals [x] only
    for the root and the empty segment. *)
Theorem Heir_Eq (x : Compact) (s t : string) :
  Eq (Heir x s) (Heir x t) = String.eqb s t /\
  (Eq (Heir x s) x = true <-> Seq x = [EmptyString] /\ s = EmptyString).
Proof.
  split.
  - destruct (String.eqb_spec s t) as [->|Hne]; [apply Eq_refl|].
    destruct (Eq (Heir x s) (Heir x t)) eqn:E; [|reflexivity].
    apply Eq_spec in E. rewrite !Heir_Seq in E.
    destruct (list_eq_dec _ _ _).
    + injection E as E. contradiction.
    + apply app_inj_tail in E as [_ E]. contradiction.
  - rewrite Eq_spec, Heir_Seq.
    destruct (list_eq_dec string_dec (Seq x) [EmptyString]) as [E|E].
    + rewrite E. split; [intros H; injection H as ->; auto | intros [_ ->]; reflexivity].
    + split; [|intros [H _]; contradiction].
      intros H. exfalso. apply (f_equal (@length string)) in H.
      rewrite length_app in H. simpl in H. lia.
Qed.

(** ** The JSON encoding, for every identifier *)

Module JSONMore.
Import GoJSON UTF8Facts.

Lemma list_ascii_app (a b : string) :
  list_ascii_of_string (a ++ b) = list_ascii_of_string a ++ list_ascii_of_string b.
Proof. induction a as [|c a IH]; simpl; [reflexivity | rewrite IH; reflexivity]. Qed.

Lemma escape_safe (c : ascii) :
  bv c < 128 -> htmlSafe (bv c) = false ->
  Forall safe (list_ascii_of_string (escape_ascii (bv c))).
Proof.
  intros H Hs. unfold safe.
  destruct c as [[] [] [] [] [] [] [] []];
    vm_compute in H, Hs; try discriminate;
    repeat constructor; vm_compute; discriminate.
Qed.

Lemma appendString_decodes (s : string) :
  (forall t, scan_string (appendString s ++ String dquote t)%string =
             Some (appendString s, t)) /\
  (exists u, unquote_loop (appendString s) = Some u) /\
  Forall safe (list_ascii_of_string (appendString s)).
Proof.
  remember (String.length s) as n eqn:Hn.
  revert s Hn. induction n as [n IH] using (well_founded_induction lt_wf).
  intros [|c rest] Hn.
  { split; [intros t; reflexivity | split; [eexists; reflexivity | constructor]]. }
  pose proof (bv_bound c) as Hc.
  cbn [appendString].
  destruct (Z.ltb_spec (bv c) 128) as [Hlo|Hhi].
  - destruct (IH (String.length rest)) with (s := rest) as [IHs [[u IHu] IHb]];
      [simpl in Hn; lia | reflexivity |].
    destruct (htmlSafe (bv c)) eqn:Hs.
    + apply htmlSafe_true in Hs as Hs'.
      split; [intros t; apply scan_copy; try lia; apply IHs|].
      split; [exists (String c u); apply unquote_copy1; try lia; exact IHu|].
      constructor; [|exact IHb].
      unfold safe, htmlSafe in *. repeat rewrite andb_true_iff in Hs.
      rewrite !negb_true_iff, !Z.eqb_neq in Hs. lia.
    + destruct (escape_ok c Hlo Hs) as [Es Eu].
      split; [intros t; rewrite sapp_assoc; apply Es, IHs|].
      split; [eexists; apply Eu, IHu|].
      rewrite list_ascii_app. apply Forall_app. split; [apply escape_safe|]; assumption.
  - rewrite DecodeRune_prefix4.
    destruct (DecodeRune_cases c rest Hhi)
      as [Hd|[[c1 [t [-> Hok]]]|[[c1 [c2 [t [-> Hok]]]]|[c1 [c2 [c3 [t [-> Hok]]]]]]]].
    + (* an invalid byte is written as the escape of U+FFFD *)
      rewrite Hd.
      destruct (IH (String.length rest)) with (s := rest) as [IHs [[u IHu] IHb]];
        [simpl in Hn; lia | reflexivity |].
      change ((RuneError =? RuneError) && (1 =? 1)%nat) with true. cbv iota.
      split; [intros t; simpl; rewrite IHs; reflexivity|].
      split; [simpl; rewrite IHu; eexists; reflexivity|].
      rewrite list_ascii_app. apply Forall_app. split; [|exact IHb].
      unfold safe; repeat constructor; vm_compute; discriminate.
    + rewrite Dec2 by exact Hok.
      destruct (IH (String.length t)) with (s := t) as [IHs [[u IHu] IHb]];
        [simpl in Hn; lia | reflexivity |].
      assert (Hr : rune2 (bv c) (bv c1) <= 2047) by (unfold ok2, rune2 in *; lia).
      cbn [Nat.eqb]. rewrite andb_false_r.
      replace ((rune2 (bv c) (bv c1) =? 8232) || (rune2 (bv c) (bv c1) =? 8233))
        with false by (symmetry; apply orb_false_iff; split; apply Z.eqb_neq; lia).
      pose proof (bv_bound c1). unfold ok2 in Hok.
      split; [intros t'; cbn [append]; apply scan_copy; try lia;
              apply scan_copy; try lia; apply IHs|].
      split; [erewrite unquote_copyn;
              [eexists; reflexivity | lia | apply Dec2; exact Hok | reflexivity | exact IHu]|].
      cbn [list_ascii_of_string]. unfold safe.
      repeat (constructor; [lia|]). exact IHb.
    + rewrite Dec3 by exact Hok.
      destruct (IH (String.length t)) with (s := t) as [IHs [[u IHu] IHb]];
        [simpl in Hn; lia | reflexivity |].
      pose proof (bv_bound c1). pose proof (bv_bound c2).
      replace ((rune3 (bv c) (bv c1) (bv c2) =? RuneError) && (3 =? 1)%nat)
        with false by (rewrite andb_false_r; reflexivity).
      destruct ((rune3 (bv c) (bv c1) (bv c2) =? 8232) ||
                (rune3 (bv c) (bv c1) (bv c2) =? 8233)) eqn:E.
      * apply orb_true_iff in E; rewrite !Z.eqb_eq in E.
        destruct E as [E|E]; rewrite E;
          (split; [intros t'; simpl; rewrite IHs; reflexivity|]);
          (split; [simpl; rewrite IHu; eexists; reflexivity|]);
          rewrite !list_ascii_app; apply Forall_app;
          (split; [|apply Forall_app; split; [|exact IHb]]);
          unfold safe; repeat constructor; vm_compute; discriminate.
      * unfold ok3 in Hok.
        split; [intros t'; cbn [append]; apply scan_copy; try lia;
                apply scan_copy; try lia; apply scan_copy; try lia; apply IHs|].
        split; [erewrite unquote_copyn;
                [eexists; reflexivity | lia | apply Dec3; exact Hok | reflexivity | exact IHu]|].
        cbn [list_ascii_of_string]. unfold safe.
        repeat (constructor; [lia|]). exact IHb.
    + rewrite Dec4 by exact Hok.
      destruct (IH (String.length t)) with (s := t) as [IHs [[u IHu] IHb]];
        [simpl in Hn; lia | reflexivity |].
      pose proof (bv_bound c1). pose proof (bv_bound c2). pose proof (bv_bound c3).
      assert (Hr : 65536 <= rune4 (bv c) (bv c1) (bv c2) (bv c3))
        by (unfold ok4, rune4 in *; lia).
      cbn [Nat.eqb]. rewrite andb_false_r.
      replace ((rune4 (bv c) (bv c1) (bv c2) (bv c3) =? 8232) ||
               (rune4 (bv c) (bv c1) (bv c2) (bv c3) =? 8233))
        with false by (symmetry; apply orb_false_iff; split; apply Z.eqb_neq; lia).
      unfold ok4 in Hok.
      split; [intros t'; cbn [append]; apply scan_copy; try lia;
              apply scan_copy; try lia; apply scan_copy; try lia;
              apply scan_copy; try lia; apply IHs|].
      split; [erewrite unquote_copyn;
              [eexists; reflexivity | lia | apply Dec4; exact Hok | reflexivity | exact IHu]|].
      cbn [list_ascii_of_string]. unfold safe.
      repeat (constructor; [lia|]). exact IHb.
Qed.

Lemma Unmarshal_Marshal_any (s v : string) :
  exists u, Unmarshal_string (Marshal_string s) v = inl u /\
            (ValidString s = true -> u = s).
Proof.
  destruct (appendString_decodes s) as [Hs [[u Hu] _]].
  exists u. split.
  - unfold Unmarshal_string, Marshal_string. cbn [skip_space].
    change (is_space dquote) with false. change (Ascii.eqb dquote dquote) with true.
    cbv iota. unfold str1. rewrite Hs. cbn [all_space].
    rewrite unquote_loop_agree, Hu. reflexivity.
  - intros HV. destruct (appendString_roundtrip s HV) as [_ Hu'].
    rewrite Hu in Hu'. injection Hu' as E. exact E.
Qed.

End JSONMore.

Lemma MarshalJSON_String (x : Compact) :
  MarshalJSON x = GoJSON.Marshal_string (to_String x).
Proof.
  unfold MarshalJSON. destruct (Z.eqb_spec (go_len (Seq x)) 0) as [E|E]; [|reflexivity].
  unfold to_String. destruct (Seq x); [reflexivity | discriminate].
Qed.

(** [MarshalJSON] always writes a JSON string that [UnmarshalJSON] reads
    without error, whatever the receiver; the identifier read back is the
    parse of the colon-joined form when that form is valid UTF-8. *)
Theorem MarshalJSON_decodes (x iri : Compact) :
  exists u, UnmarshalJSON (MarshalJSON x) iri = (NewCompact u, None) /\
            (GoJSON.ValidString (to_String x) = true -> u = to_String x).
Proof.
  destruct (JSONMore.Unmarshal_Marshal_any (to_String x) EmptyString) as [u [Hu Hv]].
  exists u. split; [|exact Hv].
  unfold UnmarshalJSON. rewrite MarshalJSON_String, Hu. reflexivity.
Qed.

(** [MarshalJSON] writes one JSON string literal: the string scanner of
    encoding/json reads it from its opening quote to its closing quote and
    no further, and every byte between the quotes is neither a control
    byte nor one of [<], [>], [&]: the output is HTML-safe. *)
Theorem MarshalJSON_html_safe (x : Compact) :
  exists body, MarshalJSON x = String GoJSON.dquote (body ++ String GoJSON.dquote EmptyString)%string /\
  (forall t, GoJSON.scan_string (body ++ String GoJSON.dquote t)%string = Some (body, t)) /\
  Forall GoJSON.safe (list_ascii_of_string body).
Proof.
  rewrite MarshalJSON_String. unfold GoJSON.Marshal_string, GoJSON.str1.
  eexists; split; [reflexivity|].
  destruct (JSONMore.appendString_decodes (to_String x)) as [Hs [_ Hf]].
  split; [exact Hs | exact Hf].
Qed.

(** ** DynamoDB attribute values *)

(** An identifier parsed from [s] is written as an [S] attribute holding
    [s] and read back as the same identifier, whatever attribute value it
    is written into; [NULL] is left as it was, and [S] is nil exactly when
    [s] is empty (the root identifier). *)
Theorem DynamoDB_roundtrip (s : string) (av : AttributeValue) :
  UnmarshalDynamoDBAttributeValue (MarshalDynamoDBAttributeValue (NewCompact s) av)
    = NewCompact s /\
  AV_NULL (MarshalDynamoDBAttributeValue (NewCompact s) av) = AV_NULL av /\
  (AV_S (MarshalDynamoDBAttributeValue (NewCompact s) av) = None <-> s = EmptyString).
Proof.
  unfold MarshalDynamoDBAttributeValue.
  replace (go_len (Seq (NewCompact s)) =? 0) with false
    by (symmetry; apply Z.eqb_neq; unfold NewCompact, go_len; cbn [Seq];
        destruct (Split_nonempty s) as [h [t ->]]; simpl; lia).
  replace (to_String (NewCompact s)) with s by (symmetry; apply Join_Split).
  unfold UnmarshalDynamoDBAttributeValue.
  destruct s as [|c s']; cbn; (split; [reflexivity|split; [reflexivity|]]).
  - split; reflexivity.
  - split; discriminate.
Qed.

(** ** IRI.Path *)

Module PathFacts.
Import GoPath.

Lemma plain_segment_spec (e : string) :
  plain_segment e = true ->
  e <> EmptyString /\ e <> "."%string /\ e <> ".."%string /\
  Forall (fun c => Ascii.eqb c slash = false) (list_ascii_of_string e).
Proof.
  unfold plain_segment. intros H.
  repeat rewrite andb_true_iff in H. rewrite !negb_true_iff in H.
  destruct H as [[[H1 H2] H3] H4].
  repeat split.
  - intros ->. discriminate H1.
  - intros ->. discriminate H3.
  - intros ->. discriminate H4.
  - apply Forall_forall. intros c Hc.
    destruct (Ascii.eqb c slash) eqn:E; [|reflexivity].
    exfalso.
    assert (Hx : existsb (fun c => Ascii.eqb c slash) (list_ascii_of_string e) = true)
      by (apply existsb_exists; exists c; split; assumption).
    congruence.
Qed.

Lemma slength_append (a b : string) :
  String.length (a ++ b) = (String.length a + String.length b)%nat.
Proof. induction a as [|c a IH]; simpl; [reflexivity | rewrite IH; reflexivity]. Qed.

Lemma substring_tail (s : string) :
  substring 0 (String.length s) s = s.
Proof. induction s as [|c s IH]; simpl; [reflexivity | rewrite IH; reflexivity]. Qed.

Lemma substring_1 (c : ascii) (s : string) :
  substring 1 (String.length (String c s) - 1) (String c s) = s.
Proof. simpl. rewrite Nat.sub_0_r. apply substring_tail. Qed.

Lemma span_plain (e rest : string) :
  Forall (fun c => Ascii.eqb c slash = false) (list_ascii_of_string e) ->
  (rest = EmptyString \/ is_slash_head rest = true) ->
  span_elem (e ++ rest) = (e, rest).
Proof.
  intros He Hr. induction e as [|c e IH].
  - destruct Hr as [->|Hr]; [reflexivity|].
    destruct rest as [|c rest]; [discriminate|]. cbn in Hr |- *. rewrite Hr. reflexivity.
  - inversion He as [|? ? Hc He']; subst.
    cbn [append span_elem]. rewrite Hc, IH by exact He'. reflexivity.
Qed.

(** One real element, read as a whole and copied to the output. *)
Lemma clean_elem (e rest : string) (out : list ascii) (f dd : nat) :
  plain_segment e = true ->
  (rest = EmptyString \/ is_slash_head rest = true) ->
  clean_loop (S f) false (e ++ rest) out dd =
  clean_loop f false rest
    (rev (list_ascii_of_string e) ++
     (if (length out =? 0)%nat then out else slash :: out)) dd.
Proof.
  intros Hp Hr. destruct (plain_segment_spec e Hp) as (Hne & Hd1 & Hd2 & Hs).
  destruct e as [|c e']; [contradiction|].
  inversion Hs as [|? ? Hc Hs']; subst.
  cbn [append clean_loop]. rewrite Hc.
  assert (Hnd : Ascii.eqb c dot && (String.eqb (e' ++ rest) EmptyString ||
                                    is_slash_head (e' ++ rest)) = false).
  { destruct (Ascii.eqb_spec c dot) as [->|]; [|reflexivity].
    destruct e' as [|c' e'']; [contradiction|].
    inversion Hs' as [|? ? Hc' _]; subst.
    cbn. rewrite Hc'. reflexivity. }
  rewrite Hnd.
  assert (Hndd : Ascii.eqb c dot && is_dot_head (e' ++ rest) &&
    (String.eqb (substring 1 (String.length (e' ++ rest) - 1) (e' ++ rest)) EmptyString ||
     is_slash_head (substring 1 (String.length (e' ++ rest) - 1) (e' ++ rest))) = false).
  { destruct (Ascii.eqb_spec c dot) as [->|]; [|reflexivity].
    destruct e' as [|c' e'']; [contradiction|].
    inversion Hs' as [|? ? Hc' Hs'']; subst.
    cbn [append is_dot_head]. destruct (Ascii.eqb_spec c' dot) as [->|]; [|reflexivity].
    rewrite substring_1.
    destruct e'' as [|c'' e3]; [contradiction|].
    inversion Hs'' as [|? ? Hc'' _]; subst.
    cbn. rewrite Hc''. reflexivity. }
  rewrite Hndd. cbn [andb orb negb].
  change (String c (e' ++ rest)) with (String c e' ++ rest)%string.
  rewrite span_plain by assumption.
  destruct (length out =? 0)%nat; reflexivity.
Qed.

Lemma clean_loop_slash (f : nat) (rooted : bool) (r : string) out dd :
  clean_loop (S f) rooted (String slash r) out dd = clean_loop f rooted r out dd.
Proof. reflexivity. Qed.

Lemma clean_slash_each (es : list string) (out : list ascii) (f : nat) :
  out <> [] -> Forall (fun e => plain_segment e = true) es ->
  (String.length (slash_each es) <= f)%nat ->
  clean_loop f false (slash_each es) out 0 =
  rev (list_ascii_of_string (slash_each es)) ++ out.
Proof.
  revert out f. induction es as [|e es IH]; intros out f Hout Hp Hf.
  - destruct f; reflexivity.
  - inversion Hp as [|? ? He Hes]; subst.
    destruct (plain_segment_spec e He) as (Hne & _).
    assert (Hle : (1 <= String.length e)%nat) by (destruct e; [contradiction|simpl; lia]).
    cbn [slash_each fold_right] in *. fold (slash_each es) in *.
    destruct f as [|[|f]].
    + simpl in Hf. lia.
    + simpl in Hf. rewrite slength_append in Hf. lia.
    + rewrite clean_loop_slash.
      rewrite clean_elem by
        (first [exact He | destruct es; [left; reflexivity | right; reflexivity]]).
      replace (length out =? 0)%nat with false
        by (destruct out; [contradiction | reflexivity]).
      rewrite IH.
      * cbn [list_ascii_of_string rev].
        rewrite JSONMore.list_ascii_app, rev_app_distr, <- !app_assoc. reflexivity.
      * destruct (rev (list_ascii_of_string e)) eqn:E; [|discriminate].
        destruct e; [contradiction | simpl in E; destruct (rev _); discriminate].
      * exact Hes.
      * simpl in Hf. rewrite slength_append in Hf. lia.
Qed.

Lemma join_buf_nonempty (buf : string) (es : list string) :
  buf <> EmptyString -> join_buf buf es = (buf ++ slash_each es)%string.
Proof.
  revert buf; induction es as [|e es IH]; intros buf Hb; cbn [join_buf slash_each fold_right].
  - rewrite UTF8Facts.sapp_nil_r. reflexivity.
  - replace (0 <? String.length buf)%nat with true
      by (destruct buf; [contradiction | reflexivity]).
    cbn [orb]. rewrite IH.
    + rewrite UTF8Facts.sapp_assoc. reflexivity.
    + destruct buf; [contradiction | discriminate].
Qed.

Lemma fold_size_ge (es : list string) (a : nat) :
  (a <= fold_left (fun n e => n + String.length e)%nat es a)%nat.
Proof.
  revert a; induction es as [|e es IH]; intros a; simpl; [lia|].
  specialize (IH (a + String.length e)%nat). lia.
Qed.

Lemma fold_size_empty (es : list string) (a : nat) :
  Forall (fun e => e = EmptyString) es ->
  fold_left (fun n e => n + String.length e)%nat es a = a.
Proof.
  revert a; induction es as [|e es IH]; intros a H; [reflexivity|].
  inversion H; subst. simpl. rewrite Nat.add_0_r. apply IH. assumption.
Qed.

Lemma Clean_plain (e : string) (es : list string) :
  plain_segment e = true -> Forall (fun e => plain_segment e = true) es ->
  Clean (e ++ slash_each es) = (e ++ GoPath.slash_each es)%string.
Proof.
  intros He Hes.
  destruct (plain_segment_spec e He) as (Hne & _ & _ & Hs).
  destruct e as [|c e']; [contradiction|].
  inversion Hs as [|? ? Hc _]; subst.
  unfold Clean. cbn [append]. rewrite Hc.
  cbn [String.length].
  change (String c (e' ++ slash_each es)) with (String c e' ++ slash_each es)%string.
  rewrite clean_elem by
    (first [exact He | destruct es; [left; reflexivity | right; reflexivity]]).
  cbn [length Nat.eqb].
  rewrite clean_slash_each.
  - rewrite app_nil_r.
    destruct (rev (list_ascii_of_string (slash_each es)) ++
              rev (list_ascii_of_string (String c e'))) eqn:E.
    + apply (f_equal (@length ascii)) in E. rewrite length_app in E.
      cbn [list_ascii_of_string rev] in E. rewrite length_app in E. simpl in E. lia.
    + rewrite <- E, rev_app_distr, !rev_involutive, <- JSONMore.list_ascii_app.
      apply string_of_list_ascii_of_string.
  - rewrite app_nil_r. cbn [list_ascii_of_string rev].
    destruct (rev (list_ascii_of_string e')); discriminate.
  - exact Hes.
  - rewrite slength_append. lia.
Qed.

End PathFacts.

Lemma Join_slash_each (e : string) (es : list string) :
  Join (e :: es) "/"%string = (e ++ GoPath.slash_each es)%string.
Proof.
  revert e; induction es as [|e2 es IH]; intros e.
  - cbn. rewrite UTF8Facts.sapp_nil_r. reflexivity.
  - rewrite Join_cons_cons, IH. reflexivity.
Qed.


(** When every segment is non-empty, holds no ['/'] and is neither ["."]
    nor [".."], [Path] joins the segments with ['/'] and [path.Clean]
    changes nothing. *)
Theorem Path_plain (x : IRI)
  (H : Forall (fun e => plain_segment e = true) (Seq (ID x))) :
  Path x = Join (Seq (ID x)) "/"%string.
Proof.
  unfold Path, GoPath.Join. destruct (Seq (ID x)) as [|e es]; [reflexivity|].
  inversion H as [|? ? He Hes]; subst.
  destruct (PathFacts.plain_segment_spec e He) as (Hne & _).
  replace (fold_left (fun n e => n + String.length e)%nat (e :: es) 0 =? 0)%nat
    with false.
  - cbn [GoPath.join_buf]. cbn [String.length Nat.ltb Nat.leb orb].
    replace (negb (String.eqb e EmptyString)) with true
      by (destruct e; [contradiction | reflexivity]).
    cbn [orb]. rewrite PathFacts.join_buf_nonempty by exact Hne.
    rewrite Join_slash_each. apply PathFacts.Clean_plain; assumption.
  - symmetry. apply Nat.eqb_neq. simpl.
    pose proof (PathFacts.fold_size_ge es (String.length e)).
    destruct e; [contradiction | simpl in *; lia].
Qed.

Lemma Path_plain_witness : Path (New "a:b:c") = "a/b/c"%string.
Proof.
  apply (Path_plain (New "a:b:c")). vm_compute. repeat constructor.
Defined.

(** When every segment is empty, the root among them, [Path] is the empty
    string: [path.Join] returns [""] before cleaning, which would give
    ["."]. *)
Theorem Path_empty (x : IRI)
  (H : Forall (fun e => e = EmptyString) (Seq (ID x))) :
  Path x = EmptyString.
Proof.
  unfold Path, GoPath.Join. rewrite PathFacts.fold_size_empty by exact H.
  reflexivity.
Qed.

Lemma Path_empty_witness : Path (New "::") = EmptyString.
Proof.
  apply (Path_empty (New "::")). vm_compute. repeat constructor.
Defined.
